(** * deploy-cloudrun: the Service descriptor builder and revision merger

    A shallow embedding of [src/service.ts]: [parseEnvVars], the [Service]
    constructor, [Service.merge] and [Service.generateRevisionName], together
    with the two lodash functions the file imports ([get] and [merge]) and
    the JavaScript string and property operations it relies on.

    Conventions of the embedding.
    - A descriptor is a JSON tree ([json]).  [undefined] is the [None] of
      [option json]; an object never stores [undefined].  Numbers are the
      integers.  A string is the sequence of its UTF-16 code units, each
      below 256.
    - Objects are association lists in insertion order, read through their
      first binding of a key.
    - Code that throws returns [Err]; every [throw] of the source has its own
      constructor of [error], JavaScript's own [TypeError] (a property of
      [null] or [undefined], a method that is not there, a property stored on
      a primitive in strict mode) is [JsTypeError].
    - [Unmodelled] marks the few behaviours a tree cannot carry (a named
      property stored on an array, a number past 2^53); nothing is stated
      about them. *)

From Stdlib Require Import List String Ascii ZArith Bool Lia DecimalString DecimalPos.
Import ListNotations.
Local Open Scope string_scope.

(** ** Results and errors *)

(** The [throw] sites of [service.ts], and the two outcomes that are not
    [throw] statements of the file. *)
Inductive error : Type :=
| ProvideInputs                  (* l.69  Error('Provide image and services names or a YAML file.') *)
| EnvVarFormat (received : string) (* l.47 TypeError(`Env Vars must be in ... format, received ${envVar}`) *)
| NoContainer                    (* l.118 Error('No container defined. ...') *)
| ResourceName                   (* l.179 Error(message) *)
| JsTypeError                    (* a TypeError raised by the JavaScript runtime *)
| Unmodelled.                    (* outside the tree model *)

Inductive result (A : Type) : Type :=
| Ok (a : A)
| Err (e : error).
Arguments Ok {A} a.
Arguments Err {A} e.

Definition bind {A B : Type} (m : result A) (k : A -> result B) : result B :=
  match m with
  | Ok a => k a
  | Err e => Err e
  end.

Declare Scope result_scope.
Delimit Scope result_scope with result.
Notation "x <- m ;; k" := (bind m (fun x => k))
  (at level 61, m at next level, right associativity) : result_scope.
Notation "' p <- m ;; k" := (bind m (fun p => k))
  (at level 61, p pattern, m at next level, right associativity) : result_scope.
Local Open Scope result_scope.

(** The error taxonomy of the specification, section 7. *)
Inductive error_class : Type := InputError | ValidationError | PreconditionError.

Definition classify (e : error) : option error_class :=
  match e with
  | ProvideInputs | EnvVarFormat _ => Some InputError
  | NoContainer | ResourceName => Some ValidationError
  | JsTypeError => Some PreconditionError
  | Unmodelled => None
  end.

(** ** Strings *)

(** [s.includes(c)] for a one-character [c]. *)
Fixpoint includes (c : ascii) (s : string) : bool :=
  match s with
  | EmptyString => false
  | String d s' => Ascii.eqb d c || includes c s'
  end.

(** [s.split(sep)] for a one-character separator: never the empty list. *)
Fixpoint split (sep : ascii) (s : string) : list string :=
  match s with
  | EmptyString => [EmptyString]
  | String c s' =>
      if Ascii.eqb c sep then EmptyString :: split sep s'
      else match split sep s' with
           | [] => [String c EmptyString]
           | w :: ws => String c w :: ws
           end
  end.

(** [s.padStart(n, c)]. *)
Fixpoint repeat_char (c : ascii) (n : nat) : string :=
  match n with
  | O => EmptyString
  | S n' => String c (repeat_char c n')
  end.

Definition padStart (n : nat) (c : ascii) (s : string) : string :=
  repeat_char c (n - String.length s) ++ s.

(** [s.replace(/[^a-z]+/g, '')]: the lowercase letters of [s], in order. *)
Definition is_lower (c : ascii) : bool :=
  let n := nat_of_ascii c in (97 <=? n)%nat && (n <=? 122)%nat.

Fixpoint keep_lower (s : string) : string :=
  match s with
  | EmptyString => EmptyString
  | String c s' => if is_lower c then String c (keep_lower s') else keep_lower s'
  end.

(** [n.toString()] of an integer. *)
Definition toString (n : Z) : string := NilZero.string_of_int (Z.to_int n).

(** *** [parseInt] *)

(** The white space [parseInt] skips, among the characters below 256. *)
Definition is_js_space (c : ascii) : bool :=
  let n := nat_of_ascii c in
  ((9 <=? n)%nat && (n <=? 13)%nat) || (n =? 32)%nat || (n =? 160)%nat.

Fixpoint trim_start (s : string) : string :=
  match s with
  | EmptyString => EmptyString
  | String c s' => if is_js_space c then trim_start s' else s
  end.

Definition digit_value (c : ascii) : option Z :=
  let n := Z.of_nat (nat_of_ascii c) in
  if (48 <=? n)%Z && (n <=? 57)%Z then Some (n - 48)%Z
  else if (97 <=? n)%Z && (n <=? 122)%Z then Some (n - 87)%Z
  else if (65 <=? n)%Z && (n <=? 90)%Z then Some (n - 55)%Z
  else None.

(** The value of the longest prefix of digits; [acc] is [None] until a digit
    has been read. *)
Fixpoint parse_digits (radix : Z) (s : string) (acc : option Z) : option Z :=
  match s with
  | EmptyString => acc
  | String c s' =>
      match digit_value c with
      | Some d =>
          if (d <? radix)%Z
          then parse_digits radix s'
                 (Some (radix * match acc with Some a => a | None => 0 end + d)%Z)
          else acc
      | None => acc
      end
  end.

(** [parseInt(s)], [None] for [NaN].  [parseInt(undefined)] is [NaN] too. *)
Definition parseInt (arg : option string) : option Z :=
  match arg with
  | None => None
  | Some s =>
      let s := trim_start s in
      let '(sign, s) :=
        match s with
        | String "+" s' => (1%Z, s')
        | String "-" s' => ((-1)%Z, s')
        | _ => (1%Z, s)
        end in
      let '(radix, s) :=
        match s with
        | String "0" (String "x" s') => (16%Z, s')
        | String "0" (String "X" s') => (16%Z, s')
        | _ => (10%Z, s)
        end in
      option_map (Z.mul sign) (parse_digits radix s None)
  end.

(** Integers are exact in a JavaScript number up to this bound. *)
Definition MAX_SAFE_INTEGER : Z := 9007199254740991.

(** ** JSON trees and JavaScript property access *)

#[local] Unset Elimination Schemes.
Inductive json : Type :=
| JNull
| JBool (b : bool)
| JNum (n : Z)
| JStr (s : string)
| JArr (items : list json)
| JObj (fields : list (string * json)).
#[local] Set Elimination Schemes.

(** Truthiness; [None] is [undefined]. *)
Definition truthy (v : option json) : bool :=
  match v with
  | None | Some JNull => false
  | Some (JBool b) => b
  | Some (JNum n) => negb (n =? 0)%Z
  | Some (JStr s) => negb (s =? "")
  | Some (JArr _) | Some (JObj _) => true
  end.

Fixpoint assoc {A : Type} (k : string) (l : list (string * A)) : option A :=
  match l with
  | [] => None
  | (k', v) :: l' => if k' =? k then Some v else assoc k l'
  end.

(** [o[k] = v] on an object: an existing key keeps its place. *)
Fixpoint assoc_set {A : Type} (k : string) (v : A) (l : list (string * A))
  : list (string * A) :=
  match l with
  | [] => [(k, v)]
  | (k', v') :: l' => if k' =? k then (k, v) :: l' else (k', v') :: assoc_set k v l'
  end.

Fixpoint list_set {A : Type} (n : nat) (v : A) (l : list A) : list A :=
  match l, n with
  | [], _ => []
  | _ :: l', O => v :: l'
  | x :: l', S n' => x :: list_set n' v l'
  end.

(** A property key: a name, or an array index. *)
Inductive key : Type :=
| Field (name : string)
| Index (i : nat).

Definition key_text (k : key) : string :=
  match k with
  | Field s => s
  | Index i => NilZero.string_of_uint (Nat.to_uint i)
  end.

(** [base[k]] on a value that is neither [null] nor [undefined].  The names
    the program reads ([metadata], [name], [spec], [template], [containers],
    [env]) are no property of an array, a string, a number or a boolean. *)
Definition prop (base : json) (k : key) : option json :=
  match base, k with
  | JObj fs, _ => assoc (key_text k) fs
  | JArr l, Index i => nth_error l i
  | JStr s, Index i =>
      match String.get i s with
      | Some c => Some (JStr (String c EmptyString))
      | None => None
      end
  | _, _ => None
  end.

(** [base.k], which throws on [null] and [undefined]. *)
Definition member (base : option json) (k : key) : result (option json) :=
  match base with
  | None | Some JNull => Err JsTypeError
  | Some b => Ok (prop b k)
  end.

(** [root.k1.k2...kn], read left to right. *)
Fixpoint read (root : option json) (path : list key) : result (option json) :=
  match path with
  | [] => Ok root
  | k :: rest => v <- member root k ;; read v rest
  end.

(** [base.k = v] in strict mode, for a name [k]. *)
Definition put (base : option json) (k : string) (v : json) : result json :=
  match base with
  | Some (JObj fs) => Ok (JObj (assoc_set k v fs))
  | Some (JArr _) => Err Unmodelled
  | _ => Err JsTypeError
  end.

(** The tree in which the child at [k] has become [c]. *)
Definition with_child (base : json) (k : key) (c : json) : json :=
  match base, k with
  | JObj fs, _ => JObj (assoc_set (key_text k) c fs)
  | JArr l, Index i => JArr (list_set i c l)
  | _, _ => base
  end.

(** [root.k1...kn.last = v]: the objects on the way are read, the last one is
    written, and the tree is rebuilt around it. *)
Fixpoint assign (root : json) (path : list key) (last : string) (v : json)
  : result json :=
  match path with
  | [] => put (Some root) last v
  | k :: rest =>
      c <- member (Some root) k ;;
      match c with
      | None => Err JsTypeError
      | Some child =>
          child' <- assign child rest last v ;;
          Ok (with_child root k child')
      end
  end.

(** ** lodash: [get] and [merge] *)

Module lodash.

(** The text of a path, as the program writes it: [spec.template.spec.containers[0]]. *)
Fixpoint path_text_rest (path : list key) : string :=
  match path with
  | [] => ""
  | Field s :: rest => "." ++ s ++ path_text_rest rest
  | Index i :: rest => "[" ++ key_text (Index i) ++ "]" ++ path_text_rest rest
  end.

Definition path_text (path : list key) : string :=
  match path with
  | Field s :: rest => s ++ path_text_rest rest
  | _ => path_text_rest path
  end.

(** [baseGet]: follow the keys while the value is neither [null] nor
    [undefined]; a walk that stops early yields [undefined]. *)
Fixpoint baseGet (object : option json) (path : list key) : option json :=
  match path with
  | [] => object
  | k :: rest =>
      match object with
      | None | Some JNull => None
      | Some b => baseGet (prop b k) rest
      end
  end.

(** [get(object, path)] for a dotted path.  [castPath] takes the whole text
    as one key when the object has a property of that very name. *)
Definition get (object : option json) (path : list key) : option json :=
  match object with
  | Some (JObj fs) =>
      match assoc (path_text path) fs with
      | Some v => Some v
      | None => baseGet object path
      end
  | _ => baseGet object path
  end.

Section Steps.
Variable mergeValue : json -> option json -> json.

(** [baseMerge] over the keys of a source object, in order. *)
Fixpoint merge_fields (src dst : list (string * json)) : list (string * json) :=
  match src with
  | [] => dst
  | (k, v) :: src' =>
      merge_fields src' (assoc_set k (mergeValue v (assoc k dst)) dst)
  end.

(** [baseMerge] over the indices of a source array, in order: element [i]
    of the source is merged onto element [i] of the destination, and the
    destination keeps what lies past the source. *)
Fixpoint merge_items (src dst : list json) : list json :=
  match src with
  | [] => dst
  | s :: src' =>
      match dst with
      | [] => mergeValue s None :: merge_items src' []
      | d :: dst' => mergeValue s (Some d) :: merge_items src' dst'
      end
  end.
End Steps.

(** What [baseMerge] leaves at a key whose source value is [srcValue] and
    whose destination value was [objValue].  Arrays and plain objects are
    merged recursively ([baseMergeDeep]): onto the destination's own value
    when that is of the same kind, onto a fresh [[]] or [{}] otherwise.
    Every other source value is assigned ([null] included). *)
Fixpoint mergeValue (srcValue : json) (objValue : option json) {struct srcValue} : json :=
  match srcValue with
  | JArr ss =>
      JArr (merge_items mergeValue ss
              match objValue with Some (JArr ds) => ds | _ => [] end)
  | JObj sf =>
      JObj (merge_fields mergeValue sf
              match objValue with Some (JObj df) => df | _ => [] end)
  | _ => srcValue
  end.

(** [isArrayLikeObject] on an object: it has a [length] that is a valid
    array length. *)
Definition is_array_like (fs : list (string * json)) : bool :=
  match assoc "length" fs with
  | Some (JNum n) => (0 <=? n)%Z && (n <=? MAX_SAFE_INTEGER)%Z
  | _ => false
  end.

(** The merges a tree can carry: no object is merged onto an array (the
    array would receive named properties), no array onto an array-like
    object (lodash copies it with holes), and no key is [__proto__]. *)
Fixpoint mergeable (srcValue : json) (objValue : option json) {struct srcValue} : bool :=
  match srcValue with
  | JArr ss =>
      match objValue with
      | Some (JObj df) => negb (is_array_like df)
      | _ => true
      end &&
      (fix items (src dst : list json) : bool :=
         match src with
         | [] => true
         | s :: src' =>
             match dst with
             | [] => mergeable s None && items src' []
             | d :: dst' => mergeable s (Some d) && items src' dst'
             end
         end) ss match objValue with Some (JArr ds) => ds | _ => [] end
  | JObj sf =>
      match objValue with
      | Some (JArr _) => false
      | _ => true
      end &&
      (fix fields (src dst : list (string * json)) : bool :=
         match src with
         | [] => true
         | (k, v) :: src' =>
             negb (k =? "__proto__") && mergeable v (assoc k dst) &&
             fields src' (assoc_set k (mergeValue v (assoc k dst)) dst)
         end) sf match objValue with Some (JObj df) => df | _ => [] end
  | _ => true
  end.

(** [merge(object, source)] on two objects: the merged tree, which lodash
    writes into [object] itself and returns. *)
Definition merge (object source : json) : result json :=
  match object, source with
  | JObj _, JObj _ =>
      if mergeable source (Some object) then Ok (mergeValue source (Some object))
      else Err Unmodelled
  | _, _ => Err Unmodelled
  end.

End lodash.

(** ** [parseEnvVars] *)

(** One element of [envVarList.map(...)]: [{ name: keyValue[0], value: keyValue[1] }]. *)
Definition envVarOfToken (envVar : string) : result json :=
  if negb (includes "=" envVar) then Err (EnvVarFormat envVar)
  else
    let keyValue := split "=" envVar in
    Ok (JObj (match nth_error keyValue 0 with
              | Some k => [("name", JStr k)]
              | None => []
              end ++
              match nth_error keyValue 1 with
              | Some v => [("value", JStr v)]
              | None => []
              end)).

(** [list.map(f)] for an [f] that may throw: the first throw ends the map. *)
Fixpoint mapM {A B : Type} (f : A -> result B) (l : list A) : result (list B) :=
  match l with
  | [] => Ok []
  | x :: l' => y <- f x ;; ys <- mapM f l' ;; Ok (y :: ys)
  end.

Definition parseEnvVars (envVarInput : string) : result (list json) :=
  let envVarList := split "," envVarInput in
  mapM envVarOfToken envVarList.

(** ** The [Service] class *)

(** [ServiceOptions].  [yaml] is the tree [YAML.parse] returns for the file
    the option names ([None] when the option is unset or empty); reading the
    file is not part of the model. *)
Module ServiceOptions.
Record t : Type := {
  image : option string;
  name : option string;
  envVars : option string;
  yaml : option json
}.
End ServiceOptions.

(** Truthiness of an optional string input. *)
Definition given (o : option string) : bool :=
  match o with
  | Some s => negb (s =? "")
  | None => false
  end.

Definition text (o : option string) : string :=
  match o with
  | Some s => s
  | None => ""
  end.

Module Service.

Definition spec := Field "spec".
Definition template := Field "template".
Definition metadata := Field "metadata".
Definition containers := Field "containers".

(** The paths the class hands to lodash's [get]. *)
Definition revisionNamePath := [spec; template; metadata; Field "name"].
Definition templateSpecPath := [spec; template; spec].
Definition containersPath := [spec; template; spec; containers].
Definition firstContainerPath := [spec; template; spec; containers; Index 0].

(** The object a service starts from when no YAML file is given (l.72-77). *)
Definition shell : json :=
  JObj [("apiVersion", JStr "serving.knative.dev/v1");
        ("kind", JStr "Service");
        ("metadata", JObj []);
        ("spec", JObj [])].

(** A constructed service: [this.request] and [this.name]. *)
Record t : Type := {
  request : json;
  name : option json
}.

(** l.79-83: the env vars input, parsed when it is truthy. *)
Definition parsedEnvVars (opts : ServiceOptions.t) : result (option (list json)) :=
  if given (ServiceOptions.envVars opts)
  then l <- parseEnvVars (text (ServiceOptions.envVars opts)) ;; Ok (Some l)
  else Ok None.

(** l.92-99: [name] set or overridden. *)
Definition applyName (opts : ServiceOptions.t) (request : json) : result json :=
  if given (ServiceOptions.name opts) then
    let n := JStr (text (ServiceOptions.name opts)) in
    m <- member (Some request) metadata ;;
    if truthy m then assign request [metadata] "name" n
    else put (Some request) "metadata" (JObj [("name", n)])
  else Ok request.

(** l.101-115: [image] set or overridden. *)
Definition applyImage (opts : ServiceOptions.t) (request : json) : result json :=
  if given (ServiceOptions.image opts) then
    let container := JObj [("image", JStr (text (ServiceOptions.image opts)))] in
    if truthy (lodash.get (Some request) templateSpecPath)
    then assign request templateSpecPath "containers" (JArr [container])
    else put (Some request) "spec"
           (JObj [("template",
                   JObj [("spec", JObj [("containers", JArr [container])])])])
  else Ok request.

(** l.72-115: the request after the YAML tree, the name and the image have
    been applied. *)
Definition appliedInputs (opts : ServiceOptions.t) : result json :=
  let request := match ServiceOptions.yaml opts with Some y => y | None => shell end in
  request <- applyName opts request ;;
  applyImage opts request.

(** l.122-127: the parsed env vars stored on the first container, if there
    is one. *)
Definition applyEnvVars (envVars : option (list json)) (request : json) : result json :=
  match envVars with
  | Some ev =>
      if truthy (lodash.get (Some request) firstContainerPath)
      then assign request firstContainerPath "env" (JArr ev)
      else Ok request
  | None => Ok request
  end.

Definition constructor (opts : ServiceOptions.t) : result t :=
  if (negb (given (ServiceOptions.name opts)) || negb (given (ServiceOptions.image opts)))
     && negb (match ServiceOptions.yaml opts with Some _ => true | None => false end)
  then Err ProvideInputs
  else
    envVars <- parsedEnvVars opts ;;
    request <- appliedInputs opts ;;
    if negb (truthy (lodash.get (Some request) containersPath))
    then Err NoContainer
    else
      request <- applyEnvVars envVars request ;;
      m <- member (Some request) metadata ;;
      n <- member m (Field "name") ;;
      Ok {| request := request; name := n |}.

(** *** [generateRevisionName] *)

(** [name.length > 63] for a truthy [name]. *)
Definition longerThan63 (name : option json) : result bool :=
  match name with
  | Some (JStr s) => Ok (63 <? String.length s)%nat
  | Some (JArr l) => Ok (63 <? List.length l)%nat
  | Some (JObj fs) =>
      match assoc "length" fs with
      | Some (JNum n) => Ok (63 <? n)%Z
      | Some (JStr _) | Some (JArr _) | Some (JObj _) => Err Unmodelled
      | _ => Ok false
      end
  | _ => Ok false
  end.

(** l.183-189: the counter, as text. *)
Definition nextNumber (prevName : option json) : result string :=
  if truthy prevName then
    match prevName with
    | Some (JStr p) =>
        let suffix := split "-" p in
        let segment :=
          if (List.length suffix <? 2)%nat then None
          else nth_error suffix (List.length suffix - 2) in
        match parseInt segment with
        | None => Ok "NaN"
        | Some n =>
            if (Z.abs n <=? MAX_SAFE_INTEGER)%Z then Ok (toString (n + 1))
            else Err Unmodelled
        end
    | _ => Err JsTypeError
    end
  else Ok "1".

(** [random36] is the text of [Math.random().toString(36)]. *)
Definition generateRevisionName (this_name : option json) (random36 : string)
    (name prevName : option json) : result json :=
  let generated :=
    num <- nextNumber prevName ;;
    let letters := substring 0 3 (keep_lower random36) in
    let newSuffix := "-" ++ padStart 4 "0" num ++ "-" ++ letters in
    match this_name with
    | Some (JStr s) => Ok (JStr (substring 0 53 s ++ newSuffix))
    | _ => Err JsTypeError
    end in
  tooLong <- (if truthy name then longerThan63 name else Ok false) ;;
  if tooLong then Err ResourceName
  else
    match name with
    | Some n => if truthy name then Ok n else generated
    | None => generated
    end.

(** *** [merge] *)

(** What [this.request] refers to. *)
Inductive place : Type :=
| Own     (* the tree the constructor built *)
| Prev.   (* the object the caller passed as [prevService] *)

(** The mutable state a call of [merge] works on: the content of the
    caller's [prevService] object, and the reference held in
    [this.request].  The tree the constructor built is never written. *)
Record store : Type := {
  prevService : json;
  this_request : place
}.

Definition M (A : Type) : Type := store -> result A * store.

Definition bindM {A B : Type} (m : M A) (k : A -> M B) : M B :=
  fun s =>
    match m s with
    | (Ok a, s') => k a s'
    | (Err e, s') => (Err e, s')
    end.

Definition lift {A : Type} (r : result A) : M A := fun s => (r, s).
Definition readPrev : M json := fun s => (Ok (prevService s), s).
Definition writePrev (v : json) : M unit :=
  fun s => (Ok tt, {| prevService := v; this_request := this_request s |}).
Definition setRequest (p : place) : M unit :=
  fun s => (Ok tt, {| prevService := prevService s; this_request := p |}).

Notation "x <~ m ;; k" := (bindM m (fun x => k))
  (at level 61, m at next level, right associativity).

(** [keys.includes(n)] compares with SameValueZero.  The keys are values of
    the service's own tree and [n] is a value of [prevService]'s tree, so two
    objects or arrays are never the same object. *)
Definition sameValueZero (a b : option json) : bool :=
  match a, b with
  | None, None => true
  | Some JNull, Some JNull => true
  | Some (JBool x), Some (JBool y) => Bool.eqb x y
  | Some (JNum x), Some (JNum y) => (x =? y)%Z
  | Some (JStr x), Some (JStr y) => (x =? y)%string
  | _, _ => false
  end.

Definition keysInclude (keys : list (option json)) (n : option json) : bool :=
  existsb (fun k => sameValueZero k n) keys.

(** [envVar.name] *)
Definition envVarName (envVar : json) : result (option json) :=
  member (Some envVar) (Field "name").

(** l.163-168: [prevEnvVars.forEach(...)], pushing onto [env]. *)
Fixpoint pushOld (keys : list (option json)) (prevEnvVars env : list json)
  : result (list json) :=
  match prevEnvVars with
  | [] => Ok env
  | envVar :: rest =>
      n <- envVarName envVar ;;
      pushOld keys rest (if keysInclude keys n then env else (env ++ [envVar])%list)
  end.

(** l.157-168: the env list stored on the merged first container. *)
Definition mergedEnv (currentEnvVars prevEnvVars : option json) : result (list json) :=
  env <- (if truthy currentEnvVars
          then match currentEnvVars with
               | Some (JArr l) => Ok l
               | _ => Err JsTypeError
               end
          else Ok []) ;;
  keys <- mapM envVarName env ;;
  match prevEnvVars with
  | None | Some JNull => Ok env
  | Some (JArr l) => pushOld keys l env
  | Some _ => Err JsTypeError
  end.

Definition envPath := (firstContainerPath ++ [Field "env"])%list.

(** [merge(prevService)].  lodash's [merge] writes into its first argument,
    so [mergedServices] is the [prevService] object itself: every write to
    the one is a write to the other, and [prevEnvVars] (l.153) is read from
    the object after the deep merge.  In the assignment of l.147 the objects
    on the left are read first, then the right-hand side is evaluated, then
    the name is stored. *)
Definition merge (random36 : string) (this : t) : M unit :=
  prev <~ readPrev ;;
  let revisionName := lodash.get (Some (request this)) revisionNamePath in
  let previousName := lodash.get (Some prev) revisionNamePath in
  mergedServices <~ lift (lodash.merge prev (request this)) ;;
  _ <~ writePrev mergedServices ;;
  _ <~ lift (read (Some mergedServices) [spec; template; metadata]) ;;
  generated <~ lift (generateRevisionName (name this) random36 revisionName previousName) ;;
  named <~ lift (assign mergedServices [spec; template; metadata] "name" generated) ;;
  _ <~ writePrev named ;;
  prevEnvVars <~ lift (read (Some named) envPath) ;;
  currentEnvVars <~ lift (read (Some (request this)) envPath) ;;
  env <~ lift (mergedEnv currentEnvVars prevEnvVars) ;;
  final <~ lift (assign named firstContainerPath "env" (JArr env)) ;;
  _ <~ writePrev final ;;
  setRequest Prev.

(** A call [service.merge(prevService)] on a service whose [request] is
    still the constructor's tree. *)
Definition call_merge (random36 : string) (this : t) (prevService : json)
  : result unit * store :=
  merge random36 this {| prevService := prevService; this_request := Own |}.

(** The tree [this.request] refers to after a call. *)
Definition requestAfter (this : t) (s : store) : json :=
  match this_request s with
  | Own => request this
  | Prev => prevService s
  end.

End Service.

(** ** Descriptors of the documented shape *)

Definition field (k : string) (v : json) : option json :=
  match v with
  | JObj fs => assoc k fs
  | _ => None
  end.

Definition optbind {A B : Type} (o : option A) (k : A -> option B) : option B :=
  match o with
  | Some a => k a
  | None => None
  end.

(** [spec.template.spec.containers], when every object on the way is there. *)
Definition containersOf (d : json) : option json :=
  optbind (field "spec" d) (fun s =>
  optbind (field "template" s) (fun t =>
  optbind (field "spec" t) (fun s' => field "containers" s'))).

(** The first container, when the container list is an array that starts
    with an object. *)
Definition firstContainer (d : json) : option (list (string * json)) :=
  match containersOf d with
  | Some (JArr (JObj c :: _)) => Some c
  | _ => None
  end.

(** The first container's env list, empty when there is none. *)
Definition envList (d : json) : list json :=
  match firstContainer d with
  | Some c => match assoc "env" c with
              | Some (JArr l) => l
              | _ => []
              end
  | None => []
  end.

(** The [name] of an env var, [None] when it has none. *)
Definition nameOf (envVar : json) : option json := field "name" envVar.

Definition envVar (n v : string) : json := JObj [("name", JStr n); ("value", JStr v)].

(** No object of the tree binds a key twice, as in every JavaScript object. *)
Fixpoint distinct (l : list string) : bool :=
  match l with
  | [] => true
  | x :: l' => negb (existsb (String.eqb x) l') && distinct l'
  end.

Fixpoint well_formed (v : json) : bool :=
  match v with
  | JArr l => forallb well_formed l
  | JObj fs =>
      distinct (map fst fs) &&
      (fix fields (l : list (string * json)) : bool :=
         match l with
         | [] => true
         | (_, x) :: l' => well_formed x && fields l'
         end) fs
  | _ => true
  end.

(** Neither an array nor an object. *)
Definition primitive (v : json) : bool :=
  match v with
  | JArr _ | JObj _ => false
  | _ => true
  end.


(** ** What the constructor is given *)

(** Neither ([name] and [image] together) nor a YAML tree is supplied. *)
Definition insufficient (opts : ServiceOptions.t) : bool :=
  (negb (given (ServiceOptions.name opts)) || negb (given (ServiceOptions.image opts)))
  && match ServiceOptions.yaml opts with
     | Some _ => false
     | None => true
     end.

(** Some comma-delimited token of the env vars input has no [=]. *)
Definition malformedEnvVars (opts : ServiceOptions.t) : Prop :=
  given (ServiceOptions.envVars opts) = true
  /\ exists tok, In tok (split "," (text (ServiceOptions.envVars opts)))
                 /\ includes "=" tok = false.

(** The options [{image, name}]. *)
Definition imageAndName (image name : string) : ServiceOptions.t :=
  {| ServiceOptions.image := Some image;
     ServiceOptions.name := Some name;
     ServiceOptions.envVars := None;
     ServiceOptions.yaml := None |}.

(** A descriptor with the given fields of [metadata], of the template's
    [metadata], and the given container list. *)
Definition descriptor (meta tmeta : list (string * json)) (cs : json) : json :=
  JObj [("metadata", JObj meta);
        ("spec", JObj [("template", JObj [("metadata", JObj tmeta);
                                          ("spec", JObj [("containers", cs)])])])].

(** A YAML tree whose container list is empty, and no image. *)
Definition emptyContainerList : ServiceOptions.t :=
  {| ServiceOptions.image := None;
     ServiceOptions.name := Some "svc";
     ServiceOptions.envVars := None;
     ServiceOptions.yaml := Some (descriptor [] [] (JArr [])) |}.

(** An error of the JavaScript runtime or of the model, none of the file's
    own [throw] statements. *)
Definition runtime (e : error) : Prop := e = JsTypeError \/ e = Unmodelled.

(** ** Revision names *)

(** A service name of 53 characters. *)
Definition longServiceName : string := repeat_char "a" 53.

(** ** Services and previous descriptors used as examples *)

(** The service [new Service({image: "new", name: "svc", envVars})] builds,
    with the given env list. *)
Definition built (env : list json) : Service.t :=
  {| Service.request :=
       JObj [("apiVersion", JStr "serving.knative.dev/v1");
             ("kind", JStr "Service");
             ("metadata", JObj [("name", JStr "svc")]);
             ("spec",
              JObj [("template",
                     JObj [("spec",
                            JObj [("containers",
                                   JArr [JObj [("image", JStr "new");
                                               ("env", JArr env)]])])])])];
     Service.name := Some (JStr "svc") |}.

(** A service built from a YAML tree that sets the revision name. *)
Definition builtWithRevision (revision : string) (env : list json) : Service.t :=
  {| Service.request :=
       descriptor [("name", JStr "svc")] [("name", JStr revision)]
         (JArr [JObj [("image", JStr "new"); ("env", JArr env)]]);
     Service.name := Some (JStr "svc") |}.

(** A deployed descriptor of revision [svc-0005-abc], with one container. *)
Definition deployed (fields : list (string * json)) : json :=
  descriptor [("name", JStr "svc")] [("name", JStr "svc-0005-abc")]
    (JArr [JObj fields]).

Definition deployedWithEnv (env : list json) : json :=
  deployed [("image", JStr "old"); ("env", JArr env)].

(** A revision name of 64 characters. *)
Definition longRevisionName : string := repeat_char "r" 64.

(** The documented example of an overlay: the current descriptor
    [{spec:{template:{spec:{containers:[{image:"new"}]}}}}] and a previous
    descriptor with an unrelated top-level field and two containers. *)
Definition currentNew : list (string * json) :=
  [("spec", JObj [("template",
                   JObj [("spec",
                          JObj [("containers",
                                 JArr [JObj [("image", JStr "new")]])])])])].

Definition previousFoo : list (string * json) :=
  [("foo", JStr "bar");
   ("spec", JObj [("template",
                   JObj [("spec",
                          JObj [("containers",
                                 JArr [JObj [("image", JStr "old");
                                             ("ports", JArr [JNum 8080])];
                                       JObj [("image", JStr "sidecar")]])])])])].

(** The name of an env var, or of the key [includes] looks for, is not an
    object or an array: a string, as the schema has it, another primitive
    value, or absent. *)
Definition primitiveKey (n : option json) : Prop :=
  match n with
  | Some v => primitive v = true
  | None => True
  end.

Definition primitiveName (envVar : json) : Prop := primitiveKey (nameOf envVar).

(** [l1] is [l2] with some items left out. *)
Inductive subseq {A : Type} : list A -> list A -> Prop :=
| subseq_nil : subseq [] []
| subseq_skip x l1 l2 : subseq l1 l2 -> subseq l1 (x :: l2)
| subseq_keep x l1 l2 : subseq l1 l2 -> subseq (x :: l1) (x :: l2).

(** l.164: an old env var is pushed when its name is not among the keys. *)
Definition isNew (keys : list (option json)) (envVar : json) : bool :=
  negb (Service.keysInclude keys (nameOf envVar)).
(** ** Association lists *)

Section Assoc.
Context {A : Type}.
Implicit Types (k : string) (l : list (string * A)).

Lemma assoc_set_same k v l : assoc k (assoc_set k v l) = Some v.
Proof.
  induction l as [|[k' v'] l IH]; simpl.
  - now rewrite String.eqb_refl.
  - destruct (k' =? k) eqn:E; simpl.
    + now rewrite String.eqb_refl.
    + now rewrite E.
Qed.

Lemma assoc_set_other k k' v l :
  k <> k' -> assoc k (assoc_set k' v l) = assoc k l.
Proof.
  intros Hne. induction l as [|[k0 v0] l IH]; simpl.
  - destruct (k' =? k) eqn:E; [apply String.eqb_eq in E; congruence | reflexivity].
  - destruct (k0 =? k') eqn:E; simpl.
    + apply String.eqb_eq in E; subst k0.
      destruct (k' =? k) eqn:E'; [apply String.eqb_eq in E'; congruence | reflexivity].
    + now rewrite IH.
Qed.

Lemma assoc_none_notin k l : assoc k l = None <-> ~ In k (map fst l).
Proof.
  induction l as [|[k' v'] l IH]; simpl.
  - tauto.
  - destruct (k' =? k) eqn:E.
    + apply String.eqb_eq in E. split; [discriminate | intros H; exfalso; auto].
    + apply String.eqb_neq in E. rewrite IH. tauto.
Qed.

Lemma assoc_in k v l : assoc k l = Some v -> In (k, v) l.
Proof.
  induction l as [|[k' v'] l IH]; simpl; [discriminate|].
  destruct (k' =? k) eqn:E.
  - apply String.eqb_eq in E. intros [= ->]. left; congruence.
  - auto.
Qed.
End Assoc.

Lemma distinct_NoDup l : distinct l = true -> NoDup l.
Proof.
  induction l as [|x l IH]; simpl; [constructor|].
  rewrite andb_true_iff, negb_true_iff. intros [Hx Hl].
  constructor; [|auto].
  intros Hin. assert (existsb (String.eqb x) l = true) as E.
  { apply existsb_exists. exists x. split; [assumption | apply String.eqb_refl]. }
  congruence.
Qed.

Lemma well_formed_keys fs :
  well_formed (JObj fs) = true -> NoDup (map fst fs).
Proof.
  simpl. rewrite andb_true_iff. intros [H _]. now apply distinct_NoDup.
Qed.

Lemma well_formed_field fs k v :
  well_formed (JObj fs) = true -> assoc k fs = Some v -> well_formed v = true.
Proof.
  simpl. rewrite andb_true_iff. intros [_ H] Hk.
  apply assoc_in in Hk. revert H Hk.
  induction fs as [|[k' v'] fs IH]; simpl; [tauto|].
  rewrite andb_true_iff. intros [Hv Hfs] [Heq | Hin].
  - congruence.
  - auto.
Qed.

Lemma well_formed_item l x :
  well_formed (JArr l) = true -> In x l -> well_formed x = true.
Proof.
  simpl. rewrite forallb_forall. auto.
Qed.

(** ** lodash's [merge], field by field and item by item *)

Section MergeFields.
Variable f : json -> option json -> json.

Lemma merge_fields_absent k src dst :
  assoc k src = None ->
  assoc k (lodash.merge_fields f src dst) = assoc k dst.
Proof.
  revert dst. induction src as [|[k' v'] src IH]; intros dst; simpl; [reflexivity|].
  destruct (k' =? k) eqn:E; [discriminate|].
  intros H. rewrite IH by assumption.
  apply assoc_set_other. apply String.eqb_neq in E. congruence.
Qed.

Lemma merge_fields_present k v src dst :
  NoDup (map fst src) -> assoc k src = Some v ->
  assoc k (lodash.merge_fields f src dst) = Some (f v (assoc k dst)).
Proof.
  revert dst. induction src as [|[k' v'] src IH]; intros dst; simpl; [discriminate|].
  intros Hnd. inversion Hnd as [|? ? Hnotin Hnd']; subst.
  destruct (k' =? k) eqn:E.
  - apply String.eqb_eq in E; subst k'. intros [= ->].
    rewrite merge_fields_absent by now apply assoc_none_notin.
    apply assoc_set_same.
  - intros H. rewrite IH by assumption.
    rewrite assoc_set_other; [reflexivity|].
    apply String.eqb_neq in E. congruence.
Qed.

Lemma merge_items_length src dst :
  List.length (lodash.merge_items f src dst)
  = Nat.max (List.length src) (List.length dst).
Proof.
  revert dst. induction src as [|s src IH]; intros dst; simpl; [reflexivity|].
  destruct dst as [|d dst]; simpl; rewrite IH; simpl; lia.
Qed.

Lemma merge_items_nth src dst i s :
  nth_error src i = Some s ->
  nth_error (lodash.merge_items f src dst) i = Some (f s (nth_error dst i)).
Proof.
  revert dst i. induction src as [|s0 src IH]; intros dst [|i]; simpl; try discriminate.
  - intros [= ->]. now destruct dst.
  - intros H. destruct dst as [|d dst]; simpl.
    + rewrite (IH [] i H). now destruct i.
    + apply IH, H.
Qed.

Lemma merge_items_past src dst i :
  List.length src <= i ->
  nth_error (lodash.merge_items f src dst) i = nth_error dst i.
Proof.
  revert dst i. induction src as [|s0 src IH]; intros dst i; simpl; [reflexivity|].
  destruct i as [|i]; [lia|]. intros H.
  destruct dst as [|d dst]; simpl.
  - rewrite IH by lia. now destruct i.
  - apply IH. lia.
Qed.

End MergeFields.


(** ** Strings: [includes] and [split] *)

Lemma includes_app c a b : includes c (a ++ b) = includes c a || includes c b.
Proof.
  induction a as [|d a IH]; simpl; [reflexivity|].
  now rewrite IH, orb_assoc.
Qed.

Lemma split_no_separator sep s : includes sep s = false -> split sep s = [s].
Proof.
  induction s as [|c s IH]; simpl; [reflexivity|].
  rewrite orb_false_iff. intros [Hc Hs]. now rewrite Hc, IH.
Qed.

Lemma split_at_separator sep a r :
  includes sep a = false -> split sep (a ++ String sep r) = a :: split sep r.
Proof.
  induction a as [|c a IH]; simpl.
  - intros _. now rewrite Ascii.eqb_refl.
  - rewrite orb_false_iff. intros [Hc Ha]. now rewrite Hc, IH.
Qed.

(** ** [mapM] *)

Lemma mapM_err {A B : Type} (f : A -> result B) l e :
  mapM f l = Err e -> exists x, In x l /\ f x = Err e.
Proof.
  induction l as [|x l IH]; simpl; [discriminate|].
  destruct (f x) as [y|e'] eqn:E; simpl.
  - destruct (mapM f l) as [ys|e'']; simpl; [discriminate|].
    intros [= ->]. destruct IH as (x' & Hin & Hx'); [reflexivity|]. eauto.
  - intros [= ->]. eauto.
Qed.

Lemma mapM_ok {A B : Type} (f : A -> result B) l ys :
  mapM f l = Ok ys -> Forall2 (fun x y => f x = Ok y) l ys.
Proof.
  revert ys. induction l as [|x l IH]; simpl; intros ys.
  - intros [= <-]. constructor.
  - destruct (f x) as [y|e] eqn:E; simpl; [|discriminate].
    destruct (mapM f l) as [ys'|e]; simpl; [|discriminate].
    intros [= <-]. constructor; auto.
Qed.

Lemma mapM_fails {A B : Type} (f : A -> result B) l x e :
  In x l -> f x = Err e -> exists e', mapM f l = Err e'.
Proof.
  induction l as [|x' l IH]; simpl; [tauto|].
  intros [-> | Hin] Hx.
  - rewrite Hx. simpl. eauto.
  - destruct (f x') as [y|e1]; simpl; [|eauto].
    destruct (IH Hin Hx) as (e' & ->). simpl. eauto.
Qed.

(** ** [parseEnvVars] *)

Lemma envVarOfToken_err tok e :
  envVarOfToken tok = Err e -> e = EnvVarFormat tok /\ includes "=" tok = false.
Proof.
  unfold envVarOfToken. destruct (includes "=" tok); simpl; [discriminate|].
  intros [= <-]. auto.
Qed.

Lemma parseEnvVars_err s e :
  parseEnvVars s = Err e ->
  exists tok, e = EnvVarFormat tok /\ In tok (split "," s) /\ includes "=" tok = false.
Proof.
  unfold parseEnvVars. intros H. apply mapM_err in H as (tok & Hin & Htok).
  apply envVarOfToken_err in Htok as [-> Hno]. eauto.
Qed.

Lemma parseEnvVars_fails s tok :
  In tok (split "," s) -> includes "=" tok = false ->
  exists tok', parseEnvVars s = Err (EnvVarFormat tok').
Proof.
  intros Hin Hno. unfold parseEnvVars.
  destruct (mapM_fails envVarOfToken (split "," s) tok (EnvVarFormat tok) Hin) as (e & He).
  { unfold envVarOfToken. now rewrite Hno. }
  destruct (parseEnvVars_err s e He) as (tok' & -> & _). eauto.
Qed.

Lemma envVarOfToken_accepts tok :
  includes "=" tok = true -> exists e, envVarOfToken tok = Ok e.
Proof. intros H. unfold envVarOfToken. rewrite H. cbn [negb]. eauto. Qed.

Lemma mapM_succeeds {A B : Type} (f : A -> result B) l :
  (forall x, In x l -> exists y, f x = Ok y) -> exists ys, mapM f l = Ok ys.
Proof.
  induction l as [|x l IH]; intros H; cbn [mapM]; [eauto|].
  destruct (H x (or_introl eq_refl)) as [y ->].
  destruct IH as [ys ->]; [intros z Hz; apply H; now right|].
  cbn [bind]. eauto.
Qed.

Lemma mapM_length {A B : Type} (f : A -> result B) l ys :
  mapM f l = Ok ys -> List.length ys = List.length l.
Proof.
  intros H. apply mapM_ok in H. induction H; simpl; congruence.
Qed.

Lemma mapM_nth {A B : Type} (f : A -> result B) l ys i x :
  mapM f l = Ok ys -> nth_error l i = Some x ->
  exists y, nth_error ys i = Some y /\ f x = Ok y.
Proof.
  intros H. apply mapM_ok in H. revert i.
  induction H as [|x0 y0 l ys Hxy _ IH]; intros [|i]; simpl; try discriminate.
  - intros [= <-]. eauto.
  - apply IH.
Qed.

(** What a token [a=b=c] yields: the first two segments. *)
Lemma envVarOfToken_two_segments (a b c : string) :
  includes "=" a = false ->
  includes "=" b = false ->
  envVarOfToken (a ++ "=" ++ b ++ "=" ++ c) = Ok (envVar a b).
Proof.
  intros Ha Hb. unfold envVarOfToken.
  rewrite includes_app. simpl includes. rewrite orb_true_r. simpl negb.
  change ("=" ++ b ++ "=" ++ c) with (String "=" (b ++ String "=" c)).
  rewrite (split_at_separator "=" a) by assumption.
  rewrite (split_at_separator "=" b) by assumption.
  reflexivity.
Qed.

(** C10.  [parseEnvVars] splits each comma-delimited token on every [=] and
    keeps the first two segments.  Whatever the input and wherever the token
    stands in it: when token number [i] of the input is [a=b=c] (no [=] in
    [a] or [b], anything in [c], further [=] included) and no token of the
    input lacks its [=], the input is accepted, there is one entry per
    token, and entry number [i] is [{name: a, value: b}]; the text after
    the second [=] is dropped, neither kept in the value nor rejected. *)
Theorem parseEnvVars_keeps_first_two_segments
    (envVarInput : string) (i : nat) (a b c : string) :
  includes "=" a = false ->
  includes "=" b = false ->
  nth_error (split "," envVarInput) i = Some (a ++ "=" ++ b ++ "=" ++ c) ->
  (forall tok, In tok (split "," envVarInput) -> includes "=" tok = true) ->
  exists envVars,
    parseEnvVars envVarInput = Ok envVars
    /\ List.length envVars = List.length (split "," envVarInput)
    /\ nth_error envVars i = Some (envVar a b).
Proof.
  intros Ha Hb Hi Hall. unfold parseEnvVars.
  destruct (mapM_succeeds envVarOfToken (split "," envVarInput)) as [ys Hys].
  { intros tok Htok. now apply envVarOfToken_accepts, Hall. }
  exists ys. split; [exact Hys|]. split; [exact (mapM_length _ _ _ Hys)|].
  destruct (mapM_nth _ _ _ _ _ Hys Hi) as (y & Hy & Htok).
  rewrite (envVarOfToken_two_segments a b c Ha Hb) in Htok.
  now injection Htok as <-.
Qed.

Lemma parseEnvVars_keeps_first_two_segments_example :
  exists envVars,
    parseEnvVars "K=v,A=1=2,B=3==" = Ok envVars
    /\ List.length envVars = List.length (split "," "K=v,A=1=2,B=3==")
    /\ nth_error envVars 1 = Some (envVar "A" "1").
Proof.
  apply (parseEnvVars_keeps_first_two_segments "K=v,A=1=2,B=3==" 1 "A" "1" "2");
    [reflexivity | reflexivity | reflexivity |].
  intros tok [<-|[<-|[<-|[]]]]; reflexivity.
Defined.

(** ** The constructor *)

Lemma member_err base k e : member base k = Err e -> runtime e.
Proof.
  unfold member, runtime. destruct base as [[]|]; intros [= <-]; auto.
Qed.

Lemma put_err base k v e : put base k v = Err e -> runtime e.
Proof.
  unfold put, runtime. destruct base as [[]|]; intros [= <-]; auto.
Qed.

Lemma assign_err root path last v e : assign root path last v = Err e -> runtime e.
Proof.
  revert root. induction path as [|k rest IH]; intros root; cbn [assign].
  - exact (put_err (Some root) last v e).
  - destruct (member (Some root) k) as [[child|]|e'] eqn:E; cbn [bind].
    + destruct (assign child rest last v) as [c'|e''] eqn:E'; cbn [bind]; [discriminate|].
      intros [= <-]. eapply IH, E'.
    + intros [= <-]. now left.
    + intros [= <-]. eapply member_err, E.
Qed.

Lemma applyName_err opts request e : Service.applyName opts request = Err e -> runtime e.
Proof.
  unfold Service.applyName. destruct (given _); [|discriminate].
  destruct (member (Some request) Service.metadata) as [m|e'] eqn:E; cbn [bind].
  - destruct (truthy m); [apply assign_err | apply put_err].
  - intros [= <-]. eapply member_err, E.
Qed.

Lemma applyImage_err opts request e : Service.applyImage opts request = Err e -> runtime e.
Proof.
  unfold Service.applyImage. destruct (given _); [|discriminate].
  destruct (truthy _); [apply assign_err | apply put_err].
Qed.

Lemma appliedInputs_err opts e : Service.appliedInputs opts = Err e -> runtime e.
Proof.
  unfold Service.appliedInputs.
  destruct (Service.applyName opts _) as [r|e'] eqn:E; cbn [bind].
  - apply applyImage_err.
  - intros [= <-]. eapply applyName_err, E.
Qed.

Lemma applyEnvVars_err ev request e : Service.applyEnvVars ev request = Err e -> runtime e.
Proof.
  unfold Service.applyEnvVars. destruct ev; [|discriminate].
  destruct (truthy _); [apply assign_err | discriminate].
Qed.

Lemma runtime_not_InputError e : runtime e -> classify e <> Some InputError.
Proof. intros [-> | ->]; discriminate. Qed.

Lemma runtime_not_ValidationError e : runtime e -> classify e <> Some ValidationError.
Proof. intros [-> | ->]; discriminate. Qed.

(** What is left of the constructor once the inputs have been applied and a
    container list has been found. *)
Lemma finish_err ev request e :
  (request' <- Service.applyEnvVars ev request ;;
   m <- member (Some request') Service.metadata ;;
   n <- member m (Field "name") ;;
   Ok {| Service.request := request'; Service.name := n |}) = Err e ->
  runtime e.
Proof.
  destruct (Service.applyEnvVars ev request) as [r|e'] eqn:E; cbn [bind].
  - destruct (member (Some r) Service.metadata) as [m|e''] eqn:E'; cbn [bind].
    + destruct (member m (Field "name")) as [n|e3] eqn:E3; cbn [bind]; [discriminate|].
      intros [= <-]. eapply member_err, E3.
    + intros [= <-]. eapply member_err, E'.
  - intros [= <-]. eapply applyEnvVars_err, E.
Qed.

Lemma insufficient_guard opts :
  ((negb (given (ServiceOptions.name opts)) || negb (given (ServiceOptions.image opts)))
   && negb match ServiceOptions.yaml opts with Some _ => true | None => false end)
  = insufficient opts.
Proof. unfold insufficient. now destruct (ServiceOptions.yaml opts). Qed.

Lemma parsedEnvVars_err opts e :
  Service.parsedEnvVars opts = Err e ->
  classify e = Some InputError /\ malformedEnvVars opts.
Proof.
  unfold Service.parsedEnvVars, malformedEnvVars.
  destruct (given (ServiceOptions.envVars opts)) eqn:G; [|discriminate].
  destruct (parseEnvVars _) as [l|e'] eqn:E; cbn [bind]; [discriminate|].
  intros [= <-]. apply parseEnvVars_err in E as (tok & -> & Hin & Hno).
  split; [reflexivity|]. eauto.
Qed.

Lemma parsedEnvVars_fails opts :
  malformedEnvVars opts -> exists tok, Service.parsedEnvVars opts = Err (EnvVarFormat tok).
Proof.
  unfold Service.parsedEnvVars, malformedEnvVars.
  intros (G & tok & Hin & Hno). rewrite G.
  destruct (parseEnvVars_fails _ tok Hin Hno) as (tok' & ->). cbn [bind]. eauto.
Qed.

(** C8.  The constructor raises an InputError exactly when the inputs are
    insufficient (neither name and image together, nor a YAML tree) or some
    comma-delimited token of the env vars input has no [=]. *)
Theorem constructor_InputError_iff (opts : ServiceOptions.t) :
  (exists e, Service.constructor opts = Err e /\ classify e = Some InputError)
  <-> insufficient opts = true \/ malformedEnvVars opts.
Proof.
  unfold Service.constructor. rewrite insufficient_guard.
  destruct (insufficient opts) eqn:I.
  { split; [auto | intros _; exists ProvideInputs; auto]. }
  split.
  - intros (e & He & Hc). right.
    destruct (Service.parsedEnvVars opts) as [ev|e'] eqn:P; cbn [bind] in He.
    + exfalso. destruct (Service.appliedInputs opts) as [r|e'] eqn:A; cbn [bind] in He.
      * destruct (negb (truthy _)).
        -- injection He as <-. discriminate.
        -- apply finish_err in He. now apply runtime_not_InputError in He.
      * injection He as <-. apply appliedInputs_err in A.
        now apply runtime_not_InputError in A.
    + now apply parsedEnvVars_err in P.
  - intros [? | Hm]; [discriminate|].
    destruct (parsedEnvVars_fails opts Hm) as (tok & ->). cbn [bind].
    exists (EnvVarFormat tok). auto.
Qed.

(** C5, as the code has it.  The constructor raises a ValidationError exactly
    when the inputs are sufficient, the env vars parse, and the value that
    [get] finds at [spec.template.spec.containers] after the YAML tree, the
    name and the image have been applied is falsy. *)
Theorem constructor_ValidationError_iff (opts : ServiceOptions.t) :
  (exists e, Service.constructor opts = Err e /\ classify e = Some ValidationError)
  <-> insufficient opts = false
      /\ (exists ev, Service.parsedEnvVars opts = Ok ev)
      /\ exists request,
           Service.appliedInputs opts = Ok request
           /\ truthy (lodash.get (Some request) Service.containersPath) = false.
Proof.
  unfold Service.constructor. rewrite insufficient_guard.
  destruct (insufficient opts) eqn:I.
  { split; [intros (e & [= <-] & ?); discriminate | intros [? _]; discriminate]. }
  destruct (Service.parsedEnvVars opts) as [ev|e'] eqn:P; cbn [bind].
  2:{ split.
      - intros (e & [= <-] & Hc). apply parsedEnvVars_err in P as [P _]. congruence.
      - intros (_ & (ev & ?) & _). discriminate. }
  destruct (Service.appliedInputs opts) as [r|e'] eqn:A; cbn [bind].
  2:{ split.
      - intros (e & [= <-] & Hc). apply appliedInputs_err in A.
        now apply runtime_not_ValidationError in A.
      - intros (_ & _ & r & ? & _). discriminate. }
  destruct (truthy (lodash.get (Some r) Service.containersPath)) eqn:T; cbn [bind].
  - split.
    + intros (e & He & Hc). apply finish_err in He.
      now apply runtime_not_ValidationError in He.
    + intros (_ & _ & r' & [= <-] & T'). congruence.
  - split.
    + intros _. repeat split; eauto.
    + intros _. exists NoContainer. auto.
Qed.

(** C5, as stated, fails: a YAML tree whose container list is empty, with no
    image input, is not rejected. *)
Lemma empty_container_list_is_accepted :
  (exists request,
     Service.appliedInputs emptyContainerList = Ok request
     /\ containersOf request = Some (JArr []))
  /\ exists svc, Service.constructor emptyContainerList = Ok svc.
Proof.
  split; eexists; [split|]; reflexivity.
Qed.

(** C9.  For a non-empty image and name, the constructor succeeds on
    [{image, name}] and yields a descriptor whose first container has the
    image and whose [metadata.name] is the name. *)
Theorem constructor_image_and_name (image name : string) :
  image <> "" -> name <> "" ->
  exists svc,
    Service.constructor (imageAndName image name) = Ok svc
    /\ read (Some (Service.request svc)) (Service.firstContainerPath ++ [Field "image"])
       = Ok (Some (JStr image))
    /\ read (Some (Service.request svc)) [Service.metadata; Field "name"]
       = Ok (Some (JStr name))
    /\ Service.name svc = Some (JStr name).
Proof.
  intros Hi Hn.
  destruct image as [|ci image]; [congruence|].
  destruct name as [|cn name]; [congruence|].
  eexists. repeat split; reflexivity.
Qed.

Lemma constructor_image_and_name_example :
  exists svc,
    Service.constructor (imageAndName "gcr.io/project/image" "svc") = Ok svc
    /\ read (Some (Service.request svc)) (Service.firstContainerPath ++ [Field "image"])
       = Ok (Some (JStr "gcr.io/project/image"))
    /\ read (Some (Service.request svc)) [Service.metadata; Field "name"]
       = Ok (Some (JStr "svc"))
    /\ Service.name svc = Some (JStr "svc").
Proof.
  apply (constructor_image_and_name "gcr.io/project/image" "svc"); discriminate.
Defined.

(** ** [generateRevisionName] *)

Lemma truthy_text s : s <> "" -> truthy (Some (JStr s)) = true.
Proof.
  intros H. simpl. destruct (s =? "") eqn:E; [|reflexivity].
  apply String.eqb_eq in E. congruence.
Qed.

(** C7.  With an explicit (non-empty) name, [generateRevisionName] raises a
    ValidationError if and only if the name is longer than 63 characters; a
    name of at most 63 characters is returned unchanged, whatever it is made
    of. *)
Theorem explicit_name_length_check
    (this_name : option json) (random36 s : string) (prevName : option json) :
  s <> "" ->
  ((exists e, Service.generateRevisionName this_name random36 (Some (JStr s)) prevName = Err e
              /\ classify e = Some ValidationError)
   <-> 63 < String.length s)
  /\ (String.length s <= 63 ->
      Service.generateRevisionName this_name random36 (Some (JStr s)) prevName = Ok (JStr s)).
Proof.
  intros Hs. unfold Service.generateRevisionName.
  rewrite (truthy_text s Hs). cbn [Service.longerThan63 bind].
  destruct (63 <? String.length s)%nat eqn:L.
  - apply Nat.ltb_lt in L. split.
    + split; [intros _; assumption | intros _; exists ResourceName; auto].
    + lia.
  - apply Nat.ltb_ge in L. split.
    + split; [intros (e & [=] & _) | lia].
    + reflexivity.
Qed.

Lemma explicit_name_length_check_example :
  "my-revision" <> ""
  /\ Service.generateRevisionName (Some (JStr "svc")) "0.4fzyo82mvyr"
       (Some (JStr "my-revision")) (Some (JStr "svc-0005-abc"))
     = Ok (JStr "my-revision").
Proof.
  split; [discriminate|].
  apply (explicit_name_length_check (Some (JStr "svc")) "0.4fzyo82mvyr" "my-revision"
           (Some (JStr "svc-0005-abc"))); [discriminate | simpl; lia].
Defined.

Lemma nextNumber_err prevName e : Service.nextNumber prevName = Err e -> runtime e.
Proof.
  unfold Service.nextNumber. destruct (truthy prevName); [|discriminate].
  destruct prevName as [[]|]; try (intros [= <-]; now left).
  destruct (parseInt _) as [n|]; [|discriminate].
  destruct (Z.abs n <=? MAX_SAFE_INTEGER)%Z; [discriminate | intros [= <-]; now right].
Qed.

(** Without a name, the revision name is generated: no ValidationError. *)
Lemma generated_name_not_rejected this_name random36 name prevName e :
  truthy name = false ->
  Service.generateRevisionName this_name random36 name prevName = Err e ->
  runtime e.
Proof.
  intros T. unfold Service.generateRevisionName. rewrite T. cbn [bind].
  destruct name as [n|];
    (destruct (Service.nextNumber prevName) as [num|e'] eqn:N; cbn [bind];
     [ destruct this_name as [[]|]; intros [= <-]; now left
     | intros [= <-]; eapply nextNumber_err, N ]).
Qed.

(** The format of a generated name. *)
Lemma generated_name_format (s random36 : string) (prevName : option json) (num : string) :
  Service.nextNumber prevName = Ok num ->
  Service.generateRevisionName (Some (JStr s)) random36 None prevName
  = Ok (JStr (substring 0 53 s ++ "-" ++ padStart 4 "0" num ++ "-"
              ++ substring 0 3 (keep_lower random36))).
Proof.
  intros H. unfold Service.generateRevisionName. cbn [truthy bind].
  now rewrite H.
Qed.

Lemma nextNumber_examples :
  Service.nextNumber (Some (JStr "svc-0005-abc")) = Ok "6"
  /\ Service.nextNumber None = Ok "1"
  /\ Service.nextNumber (Some (JStr "svc")) = Ok "NaN".
Proof. repeat split. Qed.

(** *** Lengths *)

Lemma length_app (a b : string) :
  String.length (a ++ b) = String.length a + String.length b.
Proof. induction a as [|c a IH]; simpl; [reflexivity | now rewrite IH]. Qed.






(** C6, where the code departs from it.  A random text with a single letter
    leaves a one-letter suffix, and a counter of six digits after a service
    name of 53 characters gives a name of 64 characters. *)
Theorem generated_name_short_suffix_and_overlong :
  Service.generateRevisionName (Some (JStr "svc")) "0.i" None (Some (JStr "svc-0005-abc"))
  = Ok (JStr "svc-0006-i")
  /\ exists n,
       Service.generateRevisionName (Some (JStr longServiceName)) "0.4fzyo82mvyr" None
         (Some (JStr "a-123456-abc")) = Ok (JStr n)
       /\ String.length n = 64.
Proof.
  split; [reflexivity|]. eexists. split; reflexivity.
Qed.

(** ** [merge] *)

Lemma built_by_constructor :
  Service.constructor
    {| ServiceOptions.image := Some "new";
       ServiceOptions.name := Some "svc";
       ServiceOptions.envVars := Some "NEW=y";
       ServiceOptions.yaml := None |}
  = Ok (built [envVar "NEW" "y"]).
Proof. reflexivity. Qed.

Lemma lodash_merge_ok object source merged :
  lodash.merge object source = Ok merged ->
  merged = lodash.mergeValue source (Some object).
Proof.
  unfold lodash.merge. destruct object; try discriminate.
  destruct source; try discriminate.
  destruct (lodash.mergeable _ _); [|discriminate]. now intros [= <-].
Qed.

Lemma lodash_merge_err object source e : lodash.merge object source = Err e -> runtime e.
Proof.
  unfold lodash.merge.
  destruct object; try (intros [= <-]; now right).
  destruct source; try (intros [= <-]; now right).
  destruct (lodash.mergeable _ _); [discriminate | intros [= <-]; now right].
Qed.

Lemma read_err root path e : read root path = Err e -> runtime e.
Proof.
  revert root. induction path as [|k rest IH]; intros root; cbn [read]; [discriminate|].
  destruct (member root k) as [v|e'] eqn:E; cbn [bind].
  - apply IH.
  - intros [= <-]. eapply member_err, E.
Qed.

Lemma pushOld_err keys l env e : Service.pushOld keys l env = Err e -> runtime e.
Proof.
  revert env. induction l as [|x l IH]; intros env; cbn [Service.pushOld]; [discriminate|].
  destruct (Service.envVarName x) as [n|e'] eqn:E; cbn [bind].
  - apply IH.
  - intros [= <-]. unfold Service.envVarName in E. eapply member_err, E.
Qed.

Lemma mergedEnv_err ce pe e : Service.mergedEnv ce pe = Err e -> runtime e.
Proof.
  unfold Service.mergedEnv.
  destruct (if truthy ce then _ else _) as [env|e'] eqn:E; cbn [bind].
  - destruct (mapM Service.envVarName env) as [keys|e'] eqn:K; cbn [bind].
    + destruct pe as [[]|]; try discriminate; try (intros [= <-]; now left).
      apply pushOld_err.
    + intros [= <-]. apply mapM_err in K as (x & _ & Hx).
      unfold Service.envVarName in Hx. eapply member_err, Hx.
  - intros [= <-]. destruct (truthy ce); [|discriminate].
    destruct ce as [[]|]; try discriminate; injection E as <-; now left.
Qed.

Lemma runtime_not_ResourceName e : runtime e -> e <> ResourceName.
Proof. intros [-> | ->]; discriminate. Qed.

(** Unfolds a call of [merge] into its steps. *)
Ltac run_merge :=
  unfold Service.call_merge, Service.merge, Service.bindM, Service.lift,
    Service.readPrev, Service.writePrev, Service.setRequest;
  cbn [Service.prevService Service.this_request].

(** Closes the case of a step [H] that threw: by [lemma] the error is the
    runtime's, not the rejection of a revision name. *)
Ltac thrown_by H lemma :=
  intros [= -> _]; apply lemma in H; now apply runtime_not_ResourceName in H.

(** A call of [merge], step by step: what a successful call has done. *)
Lemma merge_ok_inv random36 this prev st :
  Service.call_merge random36 this prev = (Ok tt, st) ->
  exists merged generated named prevEnvVars currentEnvVars env,
    lodash.merge prev (Service.request this) = Ok merged
    /\ Service.generateRevisionName (Service.name this) random36
         (lodash.get (Some (Service.request this)) Service.revisionNamePath)
         (lodash.get (Some prev) Service.revisionNamePath) = Ok generated
    /\ assign merged [Service.spec; Service.template; Service.metadata] "name" generated
       = Ok named
    /\ read (Some named) Service.envPath = Ok prevEnvVars
    /\ read (Some (Service.request this)) Service.envPath = Ok currentEnvVars
    /\ Service.mergedEnv currentEnvVars prevEnvVars = Ok env
    /\ assign named Service.firstContainerPath "env" (JArr env)
       = Ok (Service.prevService st)
    /\ Service.this_request st = Service.Prev.
Proof.
  run_merge.
  destruct (lodash.merge prev (Service.request this)) as [merged|e] eqn:Hm; [|discriminate].
  destruct (read (Some merged) _) as [x|e] eqn:Hr; [|discriminate].
  destruct (Service.generateRevisionName _ _ _ _) as [g|e] eqn:Hg; [|discriminate].
  destruct (assign merged _ _ g) as [named|e] eqn:Hn; [|discriminate].
  destruct (read (Some named) Service.envPath) as [pe|e] eqn:Hpe; [|discriminate].
  destruct (read (Some (Service.request this)) Service.envPath) as [ce|e] eqn:Hce; [|discriminate].
  destruct (Service.mergedEnv ce pe) as [env|e] eqn:He; [|discriminate].
  destruct (assign named _ _ (JArr env)) as [final|e] eqn:Hf; [|discriminate].
  intros [= <-]. cbn [Service.prevService Service.this_request].
  exists merged, g, named, pe, ce, env. auto 10.
Qed.

(** What a call rejected for its revision name has done. *)
Lemma merge_rejected_inv random36 this prev st :
  Service.call_merge random36 this prev = (Err ResourceName, st) ->
  lodash.merge prev (Service.request this) = Ok (Service.prevService st)
  /\ Service.this_request st = Service.Own.
Proof.
  run_merge.
  destruct (lodash.merge prev (Service.request this)) as [merged|e] eqn:Hm;
    [|thrown_by Hm lodash_merge_err].
  destruct (read (Some merged) _) as [x|e] eqn:Hr; [|thrown_by Hr read_err].
  destruct (Service.generateRevisionName _ _ _ _) as [g|e] eqn:Hg;
    [|intros [= -> <-]; auto].
  destruct (assign merged _ _ g) as [named|e] eqn:Hn; [|thrown_by Hn assign_err].
  destruct (read (Some named) Service.envPath) as [pe|e] eqn:Hpe; [|thrown_by Hpe read_err].
  destruct (read (Some (Service.request this)) Service.envPath) as [ce|e] eqn:Hce;
    [|thrown_by Hce read_err].
  destruct (Service.mergedEnv ce pe) as [env|e] eqn:He; [|thrown_by He mergedEnv_err].
  destruct (assign named _ _ (JArr env)) as [final|e] eqn:Hf; [|thrown_by Hf assign_err].
  discriminate.
Qed.

(** C1, where the code departs from it.  [merge] takes no copy: lodash's
    [merge] (l.144) stores the deep merge in the previous descriptor itself,
    before the revision name is validated (l.147, l.179), although l.153
    still reads that object for the old env vars.  With an explicit revision
    name of 64 characters, previous env [OLD=x] and current env [NEW=y], the
    call is rejected for the revision name and the previous descriptor is no
    longer what it was: it holds the deep merge, and its env list is
    [NEW=y].  A call that succeeds has changed the previous descriptor as
    well. *)
Theorem merge_changes_previous_descriptor :
  fst (Service.call_merge "0.4fzyo82mvyr"
         (builtWithRevision longRevisionName [envVar "NEW" "y"])
         (deployedWithEnv [envVar "OLD" "x"]))
  = Err ResourceName
  /\ Service.prevService
       (snd (Service.call_merge "0.4fzyo82mvyr"
               (builtWithRevision longRevisionName [envVar "NEW" "y"])
               (deployedWithEnv [envVar "OLD" "x"])))
     <> deployedWithEnv [envVar "OLD" "x"]
  /\ Service.prevService
       (snd (Service.call_merge "0.4fzyo82mvyr"
               (builtWithRevision longRevisionName [envVar "NEW" "y"])
               (deployedWithEnv [envVar "OLD" "x"])))
     = lodash.mergeValue
         (Service.request (builtWithRevision longRevisionName [envVar "NEW" "y"]))
         (Some (deployedWithEnv [envVar "OLD" "x"]))
  /\ envList
       (Service.prevService
          (snd (Service.call_merge "0.4fzyo82mvyr"
                  (builtWithRevision longRevisionName [envVar "NEW" "y"])
                  (deployedWithEnv [envVar "OLD" "x"]))))
     = [envVar "NEW" "y"]
  /\ fst (Service.call_merge "0.4fzyo82mvyr" (built [envVar "NEW" "y"])
            (deployedWithEnv [envVar "OLD" "x"]))
     = Ok tt
  /\ Service.prevService
       (snd (Service.call_merge "0.4fzyo82mvyr" (built [envVar "NEW" "y"])
               (deployedWithEnv [envVar "OLD" "x"])))
     <> deployedWithEnv [envVar "OLD" "x"].
Proof.
  split; [reflexivity|]. split.
  { intros H. apply (f_equal envList) in H. discriminate H. }
  split; [reflexivity|]. split; [reflexivity|]. split; [reflexivity|].
  intros H. apply (f_equal envList) in H. discriminate H.
Qed.

(** C2, where the code departs from it.  With previous env [OLD=x] and
    current env [NEW=y], the deep merge has already overwritten [OLD] by
    index when the previous env vars are read, and the merged env list is
    [NEW=y] alone. *)
Theorem merge_loses_overwritten_env_var :
  lodash.merge (deployedWithEnv [envVar "OLD" "x"])
    (Service.request (built [envVar "NEW" "y"]))
  = Ok (lodash.mergeValue (Service.request (built [envVar "NEW" "y"]))
          (Some (deployedWithEnv [envVar "OLD" "x"])))
  /\ envList (lodash.mergeValue (Service.request (built [envVar "NEW" "y"]))
                (Some (deployedWithEnv [envVar "OLD" "x"])))
     = [envVar "NEW" "y"]
  /\ fst (Service.call_merge "0.4fzyo82mvyr" (built [envVar "NEW" "y"])
            (deployedWithEnv [envVar "OLD" "x"]))
     = Ok tt
  /\ envList
       (Service.requestAfter (built [envVar "NEW" "y"])
          (snd (Service.call_merge "0.4fzyo82mvyr" (built [envVar "NEW" "y"])
                  (deployedWithEnv [envVar "OLD" "x"]))))
     = [envVar "NEW" "y"].
Proof.
  repeat split; reflexivity.
Qed.

(** ** The deep merge *)

Lemma mergeValue_obj sf ov :
  lodash.mergeValue (JObj sf) ov
  = JObj (lodash.merge_fields lodash.mergeValue sf
            match ov with Some (JObj df) => df | _ => [] end).
Proof. reflexivity. Qed.

Lemma mergeValue_arr ss ov :
  lodash.mergeValue (JArr ss) ov
  = JArr (lodash.merge_items lodash.mergeValue ss
            match ov with Some (JArr ds) => ds | _ => [] end).
Proof. reflexivity. Qed.

Lemma mergeValue_primitive v ov : primitive v = true -> lodash.mergeValue v ov = v.
Proof. destruct v; simpl; try reflexivity; discriminate. Qed.

(** A field of the deep merge of two objects. *)
Lemma field_mergeValue k sf df :
  NoDup (map fst sf) ->
  field k (lodash.mergeValue (JObj sf) (Some (JObj df)))
  = match assoc k sf with
    | Some v => Some (lodash.mergeValue v (assoc k df))
    | None => assoc k df
    end.
Proof.
  intros Hnd. rewrite mergeValue_obj. cbn [field].
  destruct (assoc k sf) as [v|] eqn:E.
  - now apply merge_fields_present.
  - now apply merge_fields_absent.
Qed.

(** C3, as the code has it.  In the deep merge of the current descriptor
    onto the previous one: a field that only the previous descriptor has is
    kept; a field of the current descriptor whose value is neither an object
    nor an array overrides; nested objects are merged key by key; and an
    array of the current descriptor is merged onto the previous array index
    by index, the previous items past its length being kept. *)
Theorem deep_merge_overlay (p c : list (string * json)) (merged : json) :
  NoDup (map fst c) ->
  lodash.merge (JObj p) (JObj c) = Ok merged ->
  (forall k, assoc k c = None -> field k merged = assoc k p)
  /\ (forall k v, assoc k c = Some v -> primitive v = true -> field k merged = Some v)
  /\ (forall k cf pf,
        assoc k c = Some (JObj cf) -> assoc k p = Some (JObj pf) ->
        field k merged = Some (JObj (lodash.merge_fields lodash.mergeValue cf pf)))
  /\ (forall k cs ps,
        assoc k c = Some (JArr cs) -> assoc k p = Some (JArr ps) ->
        exists zs,
          field k merged = Some (JArr zs)
          /\ List.length zs = Nat.max (List.length cs) (List.length ps)
          /\ (forall i s, nth_error cs i = Some s ->
                nth_error zs i = Some (lodash.mergeValue s (nth_error ps i)))
          /\ (forall i, List.length cs <= i -> nth_error zs i = nth_error ps i)).
Proof.
  intros Hnd Hm. apply lodash_merge_ok in Hm. subst merged.
  repeat split.
  - intros k Hk. now rewrite field_mergeValue, Hk.
  - intros k v Hk Hv. now rewrite field_mergeValue, Hk, mergeValue_primitive.
  - intros k cf pf Hc Hp. now rewrite field_mergeValue, Hc, Hp, mergeValue_obj.
  - intros k cs ps Hc Hp.
    exists (lodash.merge_items lodash.mergeValue cs ps). repeat split.
    + now rewrite field_mergeValue, Hc, Hp, mergeValue_arr.
    + apply merge_items_length.
    + intros i s. apply merge_items_nth.
    + intros i. apply merge_items_past.
Qed.

Lemma deep_merge_overlay_example :
  NoDup (map fst currentNew)
  /\ field "foo" (lodash.mergeValue (JObj currentNew) (Some (JObj previousFoo)))
     = Some (JStr "bar").
Proof.
  assert (NoDup (map fst currentNew)) as Hnd by (apply distinct_NoDup; reflexivity).
  split; [exact Hnd|].
  exact (proj1 (deep_merge_overlay previousFoo currentNew
                  (lodash.mergeValue (JObj currentNew) (Some (JObj previousFoo)))
                  Hnd eq_refl) "foo" eq_refl).
Defined.

(** C3, as stated, fails: the container list of the current descriptor does
    not replace the previous one.  The first container keeps the previous
    [ports], and the previous second container is still there. *)
Lemma deep_merge_merges_sequences_by_index :
  exists merged,
    lodash.merge (JObj previousFoo) (JObj currentNew) = Ok merged
    /\ containersOf (JObj currentNew) = Some (JArr [JObj [("image", JStr "new")]])
    /\ containersOf merged
       = Some (JArr [JObj [("image", JStr "new"); ("ports", JArr [JNum 8080])];
                     JObj [("image", JStr "sidecar")]])
    /\ containersOf merged <> containersOf (JObj currentNew).
Proof.
  eexists. repeat split; try reflexivity. discriminate.
Qed.

(** ** Descriptors of the documented shape, read and written *)

Lemma firstContainer_shape d c0 :
  firstContainer d = Some c0 ->
  exists f s t s2 rest,
    d = JObj f
    /\ assoc "spec" f = Some (JObj s)
    /\ assoc "template" s = Some (JObj t)
    /\ assoc "spec" t = Some (JObj s2)
    /\ assoc "containers" s2 = Some (JArr (JObj c0 :: rest)).
Proof.
  unfold firstContainer, containersOf, optbind, field.
  destruct d as [| | | | |f]; try discriminate.
  destruct (assoc "spec" f) as [[| | | | |s]|] eqn:E1; try discriminate.
  destruct (assoc "template" s) as [[| | | | |t]|] eqn:E2; try discriminate.
  destruct (assoc "spec" t) as [[| | | | |s2]|] eqn:E3; try discriminate.
  destruct (assoc "containers" s2) as [[| | | |[|[| | | | |c] rest]|]|] eqn:E4;
    try discriminate.
  intros [= ->]. exists f, s, t, s2, rest. auto.
Qed.

Lemma firstContainer_intro f s t s2 c0 rest :
  assoc "spec" f = Some (JObj s) ->
  assoc "template" s = Some (JObj t) ->
  assoc "spec" t = Some (JObj s2) ->
  assoc "containers" s2 = Some (JArr (JObj c0 :: rest)) ->
  firstContainer (JObj f) = Some c0.
Proof.
  intros E1 E2 E3 E4. unfold firstContainer, containersOf, optbind, field.
  now rewrite E1, E2, E3, E4.
Qed.

Lemma member_obj f k : member (Some (JObj f)) (Field k) = Ok (assoc k f).
Proof. reflexivity. Qed.

(** l.153-154: the env vars of a descriptor's first container. *)
Lemma read_env d c0 :
  firstContainer d = Some c0 ->
  read (Some d) Service.envPath = Ok (assoc "env" c0).
Proof.
  intros H.
  destruct (firstContainer_shape _ _ H) as (f & s & t & s2 & rest & -> & E1 & E2 & E3 & E4).
  unfold Service.envPath, Service.firstContainerPath, Service.spec,
    Service.template, Service.containers.
  cbn [app read].
  rewrite member_obj, E1. cbn [bind].
  rewrite member_obj, E2. cbn [bind].
  rewrite member_obj, E3. cbn [bind].
  rewrite member_obj, E4. cbn [bind].
  reflexivity.
Qed.

(** l.170: the env list stored on the first container. *)
Lemma assign_env d c0 v d' :
  firstContainer d = Some c0 ->
  assign d Service.firstContainerPath "env" v = Ok d' ->
  firstContainer d' = Some (assoc_set "env" v c0).
Proof.
  intros H.
  destruct (firstContainer_shape _ _ H) as (f & s & t & s2 & rest & -> & E1 & E2 & E3 & E4).
  unfold Service.firstContainerPath, Service.spec, Service.template, Service.containers.
  cbn [assign].
  rewrite member_obj, E1. cbn [bind].
  rewrite member_obj, E2. cbn [bind].
  rewrite member_obj, E3. cbn [bind].
  rewrite member_obj, E4. cbn [bind].
  cbn. intros [= <-].
  eapply firstContainer_intro; try apply assoc_set_same.
Qed.

(** l.147: storing the revision name leaves the containers as they are. *)
Lemma assign_name d c0 g d' :
  firstContainer d = Some c0 ->
  assign d [Service.spec; Service.template; Service.metadata] "name" g = Ok d' ->
  firstContainer d' = Some c0.
Proof.
  intros H.
  destruct (firstContainer_shape _ _ H) as (f & s & t & s2 & rest & -> & E1 & E2 & E3 & E4).
  unfold Service.spec, Service.template, Service.metadata.
  cbn [assign].
  rewrite member_obj, E1. cbn [bind].
  rewrite member_obj, E2. cbn [bind].
  rewrite member_obj.
  destruct (assoc "metadata" t) as [m|] eqn:Em; cbn [bind]; [|discriminate].
  destruct (put (Some m) "name" g) as [m'|e] eqn:Ep; cbn [bind]; [|discriminate].
  cbn [with_child key_text]. intros [= <-].
  eapply firstContainer_intro.
  - apply assoc_set_same.
  - apply assoc_set_same.
  - rewrite assoc_set_other by discriminate. exact E3.
  - exact E4.
Qed.

Lemma well_formed_firstContainer d c0 :
  well_formed d = true -> firstContainer d = Some c0 -> well_formed (JObj c0) = true.
Proof.
  intros W H.
  destruct (firstContainer_shape _ _ H) as (f & s & t & s2 & rest & -> & E1 & E2 & E3 & E4).
  pose proof (well_formed_field _ _ _ W E1) as W1.
  pose proof (well_formed_field _ _ _ W1 E2) as W2.
  pose proof (well_formed_field _ _ _ W2 E3) as W3.
  pose proof (well_formed_field _ _ _ W3 E4) as W4.
  apply (well_formed_item _ _ W4). now left.
Qed.

(** The first container of the deep merge is the deep merge of the first
    containers. *)
Lemma firstContainer_merged cur prev c0 p0 :
  well_formed cur = true ->
  firstContainer cur = Some c0 ->
  firstContainer prev = Some p0 ->
  firstContainer (lodash.mergeValue cur (Some prev))
  = Some (lodash.merge_fields lodash.mergeValue c0 p0).
Proof.
  intros W Hc Hp.
  destruct (firstContainer_shape _ _ Hc) as (cf & cs & ct & cs2 & crest & -> & C1 & C2 & C3 & C4).
  destruct (firstContainer_shape _ _ Hp) as (pf & ps & pt & ps2 & prest & -> & P1 & P2 & P3 & P4).
  pose proof (well_formed_field _ _ _ W C1) as W1.
  pose proof (well_formed_field _ _ _ W1 C2) as W2.
  pose proof (well_formed_field _ _ _ W2 C3) as W3.
  rewrite mergeValue_obj.
  eapply firstContainer_intro.
  - rewrite (merge_fields_present _ _ _ _ _ (well_formed_keys _ W) C1), P1.
    apply f_equal, mergeValue_obj.
  - rewrite (merge_fields_present _ _ _ _ _ (well_formed_keys _ W1) C2), P2.
    apply f_equal, mergeValue_obj.
  - rewrite (merge_fields_present _ _ _ _ _ (well_formed_keys _ W2) C3), P3.
    apply f_equal, mergeValue_obj.
  - rewrite (merge_fields_present _ _ _ _ _ (well_formed_keys _ W3) C4), P4.
    rewrite mergeValue_arr. cbn [lodash.merge_items]. now rewrite mergeValue_obj.
Qed.

(** ** The env list *)

Lemma envVarName_ok x n : Service.envVarName x = Ok n -> n = nameOf x.
Proof.
  unfold Service.envVarName, member, nameOf, field.
  destruct x; try discriminate; now intros [= <-].
Qed.

Lemma keys_ok l keys : mapM Service.envVarName l = Ok keys -> keys = map nameOf l.
Proof.
  intros H. apply mapM_ok in H.
  induction H as [|x n l keys Hx _ IH]; [reflexivity|].
  simpl. apply envVarName_ok in Hx. congruence.
Qed.

Lemma pushOld_ok keys l env0 env :
  Service.pushOld keys l env0 = Ok env ->
  env = (env0 ++ filter (isNew keys) l)%list.
Proof.
  revert env0. induction l as [|x l IH]; intros env0; cbn [Service.pushOld filter].
  - intros [= <-]. now rewrite app_nil_r.
  - destruct (Service.envVarName x) as [n|e] eqn:E; cbn [bind]; [|discriminate].
    apply envVarName_ok in E. subst n. intros H. apply IH in H. subst env.
    unfold isNew at 2. destruct (Service.keysInclude keys (nameOf x)); cbn [negb].
    + reflexivity.
    + now rewrite <- app_assoc.
Qed.

Lemma sameValueZero_refl n : primitiveKey n -> Service.sameValueZero n n = true.
Proof.
  destruct n as [[|b|z|s|l|fs]|]; simpl; try discriminate; intros _.
  - reflexivity.
  - apply Bool.eqb_reflx.
  - apply Z.eqb_refl.
  - apply String.eqb_refl.
  - reflexivity.
Qed.

Lemma keysInclude_primitive keys n :
  In n keys -> primitiveKey n -> Service.keysInclude keys n = true.
Proof.
  intros Hin Hp. unfold Service.keysInclude. apply existsb_exists.
  exists n. split; [assumption | now apply sameValueZero_refl].
Qed.

(** The name of a merged item: that of the source when it has one, that of
    the destination otherwise. *)
Lemma nameOf_mergeValue x o :
  well_formed x = true -> primitiveName x ->
  nameOf (lodash.mergeValue x o)
  = match nameOf x with
    | Some v => Some v
    | None => match x, o with
              | JObj _, Some p => nameOf p
              | _, _ => None
              end
    end.
Proof.
  unfold primitiveName, primitiveKey, nameOf.
  destruct x as [| | | |l|fs]; try reflexivity.
  intros W. cbn [field]. rewrite mergeValue_obj. cbn [field].
  destruct (assoc "name" fs) as [v|] eqn:E.
  - intros Hv.
    rewrite (merge_fields_present _ _ _ _ _ (well_formed_keys _ W) E).
    now rewrite mergeValue_primitive.
  - intros _. rewrite (merge_fields_absent _ _ _ _ E).
    destruct o as [[]|]; reflexivity.
Qed.

Section Subseq.
Context {A : Type}.

Lemma subseq_In (l1 l2 : list A) x : subseq l1 l2 -> In x l1 -> In x l2.
Proof.
  induction 1 as [|y l1 l2 _ IH|y l1 l2 _ IH]; simpl; [tauto | auto | ].
  intros [-> | H]; auto.
Qed.

Lemma subseq_NoDup (l1 l2 : list A) : subseq l1 l2 -> NoDup l2 -> NoDup l1.
Proof.
  induction 1 as [|y l1 l2 _ IH|y l1 l2 S IH]; intros H.
  - constructor.
  - inversion H; auto.
  - inversion H as [|? ? Hnotin Hnd]; subst. constructor; [|auto].
    intros Hin. apply Hnotin. eapply subseq_In; eauto.
Qed.

Lemma subseq_filter (P : A -> bool) (l : list A) : subseq (filter P l) l.
Proof.
  induction l as [|x l IH]; simpl; [constructor|].
  destruct (P x); constructor; assumption.
Qed.
End Subseq.

Lemma subseq_map {A B : Type} (f : A -> B) (l1 l2 : list A) :
  subseq l1 l2 -> subseq (map f l1) (map f l2).
Proof. induction 1; simpl; constructor; assumption. Qed.

(** The names of the old env vars that are pushed are names of the previous
    list, in its order: an item of the deep-merged list that carries the
    name of a current env var is skipped. *)
Lemma pushed_names keys ce pe :
  Forall primitiveName ce ->
  Forall (fun x => well_formed x = true) ce ->
  (forall x, In x ce -> In (nameOf x) keys) ->
  subseq (map nameOf (filter (isNew keys) (lodash.merge_items lodash.mergeValue ce pe)))
         (map nameOf pe).
Proof.
  intros Hp Hw Hk. revert pe.
  induction ce as [|c ce IH]; intros pe; cbn [lodash.merge_items].
  - apply subseq_map, subseq_filter.
  - inversion Hp as [|? ? Pc Hp']; subst. inversion Hw as [|? ? Wc Hw']; subst.
    assert (Service.keysInclude keys (nameOf c) = true) as Kc
      by (apply keysInclude_primitive; [apply Hk; now left | exact Pc]).
    assert (forall x, In x ce -> In (nameOf x) keys) as Hk' by (intros x Hx; apply Hk; now right).
    specialize (IH Hp' Hw' Hk').
    destruct pe as [|p pe]; cbn [filter map]; unfold isNew at 1;
      rewrite (nameOf_mergeValue c _ Wc Pc).
    + destruct (nameOf c) as [v|] eqn:N.
      * rewrite Kc. cbn [negb]. apply IH.
      * replace (match c with JObj _ => None | _ => None end) with (@None json)
          by now destruct c.
        rewrite Kc. cbn [negb]. apply IH.
    + destruct (nameOf c) as [v|] eqn:N.
      * rewrite Kc. cbn [negb]. apply subseq_skip, IH.
      * destruct c as [| | | |l|fs]; try (rewrite Kc; cbn [negb]; apply subseq_skip, IH).
        destruct (negb (Service.keysInclude keys (nameOf p))); cbn [map].
        -- rewrite (nameOf_mergeValue (JObj fs) (Some p) Wc Pc), N.
           apply subseq_keep, IH.
        -- apply subseq_skip, IH.
Qed.

(** The merged env list has pairwise distinct names whenever the names of
    the current env vars are primitive and pairwise distinct, and the names
    of the previous env vars are pairwise distinct. *)
Lemma pushOld_distinct ce pe env :
  Forall primitiveName ce ->
  Forall (fun x => well_formed x = true) ce ->
  NoDup (map nameOf ce) ->
  NoDup (map nameOf pe) ->
  Service.pushOld (map nameOf ce) (lodash.merge_items lodash.mergeValue ce pe) ce = Ok env ->
  NoDup (map nameOf env).
Proof.
  intros Hn Hw Dc Dp H. apply pushOld_ok in H. subst env.
  rewrite map_app. apply NoDup_app.
  - exact Dc.
  - eapply subseq_NoDup; [|exact Dp].
    apply pushed_names; auto using in_map.
  - intros a Ha Hb.
    apply in_map_iff in Hb as (y & <- & Hy).
    apply filter_In in Hy as [_ Hy]. unfold isNew in Hy.
    rewrite keysInclude_primitive in Hy; [discriminate | exact Ha |].
    apply in_map_iff in Ha as (x & Hx & Hin).
    rewrite Forall_forall in Hn. rewrite <- Hx. exact (Hn x Hin).
Qed.

(** l.157-168 on the env vars the code reads: those of the current first
    container, and those of the previous first container after the deep
    merge. *)
Lemma mergedEnv_distinct c0 p0 env :
  well_formed (JObj c0) = true ->
  Forall primitiveName match assoc "env" c0 with Some (JArr l) => l | _ => [] end ->
  NoDup (map nameOf match assoc "env" c0 with Some (JArr l) => l | _ => [] end) ->
  NoDup (map nameOf match assoc "env" p0 with Some (JArr l) => l | _ => [] end) ->
  Service.mergedEnv (assoc "env" c0)
    (assoc "env" (lodash.merge_fields lodash.mergeValue c0 p0)) = Ok env ->
  NoDup (map nameOf env).
Proof.
  intros W Hn Dc Dp.
  destruct (assoc "env" c0) as [ce|] eqn:Ec.
  - rewrite (merge_fields_present _ _ _ _ _ (well_formed_keys _ W) Ec).
    pose proof (well_formed_field _ _ _ W Ec) as Wc.
    unfold Service.mergedEnv.
    destruct ce as [|b|n|s|l|fs].
    + cbn. intros [= <-]. constructor.
    + destruct b; cbn; discriminate.
    + cbn [truthy]. destruct (negb (n =? 0)%Z); cbn; discriminate.
    + cbn [truthy]. destruct (negb (s =? "")); cbn; discriminate.
    + cbn [truthy bind].
      destruct (mapM Service.envVarName l) as [keys|e] eqn:K; cbn [bind]; [|discriminate].
      apply keys_ok in K. subst keys.
      rewrite mergeValue_arr. apply pushOld_distinct; auto.
      apply Forall_forall. intros x Hx. eapply well_formed_item; eauto.
    + cbn. discriminate.
  - rewrite (merge_fields_absent _ _ _ _ Ec).
    unfold Service.mergedEnv. cbn [truthy bind mapM].
    destruct (assoc "env" p0) as [[|b|n|s|l|fs]|]; try discriminate.
    + intros [= <-]. constructor.
    + intros H. apply pushOld_ok in H. subst env. cbn [app].
      eapply subseq_NoDup; [|exact Dp]. apply subseq_map, subseq_filter.
    + intros [= <-]. constructor.
Qed.

(** What l.152-170 compute on two descriptors with a first container, when
    the current one has an env list: the current env vars, followed by those
    items of the deep-merged previous list whose name is not a current key.
    The first items of that list are the previous env vars overwritten, index
    by index, by the current ones. *)
Lemma merge_env_list
    (random36 : string) (this : Service.t) (prev : json) (st : Service.store)
    (c0 p0 : list (string * json)) (ce : list json) :
  well_formed (Service.request this) = true ->
  firstContainer (Service.request this) = Some c0 ->
  firstContainer prev = Some p0 ->
  assoc "env" c0 = Some (JArr ce) ->
  Service.call_merge random36 this prev = (Ok tt, st) ->
  envList (Service.requestAfter this st)
  = (ce ++ filter (isNew (map nameOf ce))
             (lodash.merge_items lodash.mergeValue ce (envList prev)))%list.
Proof.
  intros W Hc Hp Ec H.
  apply merge_ok_inv in H
    as (merged & g & nm & pe & cev & env & Hm & _ & Hnm & Hpe & Hce & He & Hf & Hr).
  apply lodash_merge_ok in Hm. subst merged.
  pose proof (firstContainer_merged _ _ _ _ W Hc Hp) as Fm.
  pose proof (assign_name _ _ _ _ Fm Hnm) as Fn.
  rewrite (read_env _ _ Fn) in Hpe. injection Hpe as <-.
  rewrite (read_env _ _ Hc) in Hce. injection Hce as <-.
  pose proof (assign_env _ _ _ _ Fn Hf) as Ff.
  unfold Service.requestAfter. rewrite Hr.
  unfold envList at 1. rewrite Ff, assoc_set_same.
  pose proof (well_formed_firstContainer _ _ W Hc) as W0.
  rewrite (merge_fields_present _ _ _ _ _ (well_formed_keys _ W0) Ec) in He.
  rewrite Ec, mergeValue_arr in He.
  unfold Service.mergedEnv in He. cbn [truthy bind] in He.
  destruct (mapM Service.envVarName ce) as [keys|e] eqn:K; cbn [bind] in He; [|discriminate].
  apply keys_ok in K. subst keys.
  apply pushOld_ok in He. subst env.
  unfold envList. now rewrite Hp.
Qed.

(** C4, as the code has it.  For two descriptors with a first container,
    when the names of the current env vars are pairwise distinct (and no
    object or array), and the names of the previous env vars are pairwise
    distinct, the env names of the first container are pairwise distinct
    after a successful merge. *)
Theorem merge_env_names_distinct
    (random36 : string) (this : Service.t) (prev : json) (st : Service.store)
    (c0 p0 : list (string * json)) :
  well_formed (Service.request this) = true ->
  firstContainer (Service.request this) = Some c0 ->
  firstContainer prev = Some p0 ->
  Forall primitiveName (envList (Service.request this)) ->
  NoDup (map nameOf (envList (Service.request this))) ->
  NoDup (map nameOf (envList prev)) ->
  Service.call_merge random36 this prev = (Ok tt, st) ->
  exists c env,
    firstContainer (Service.requestAfter this st) = Some c
    /\ assoc "env" c = Some (JArr env)
    /\ NoDup (map nameOf env).
Proof.
  intros W Hc Hp Hn Dc Dp H.
  apply merge_ok_inv in H
    as (merged & g & nm & pe & ce & env & Hm & _ & Hnm & Hpe & Hce & He & Hf & Hr).
  apply lodash_merge_ok in Hm. subst merged.
  pose proof (firstContainer_merged _ _ _ _ W Hc Hp) as Fm.
  pose proof (assign_name _ _ _ _ Fm Hnm) as Fn.
  rewrite (read_env _ _ Fn) in Hpe. injection Hpe as <-.
  rewrite (read_env _ _ Hc) in Hce. injection Hce as <-.
  pose proof (assign_env _ _ _ _ Fn Hf) as Ff.
  unfold Service.requestAfter. rewrite Hr.
  eexists. exists env. split; [exact Ff|]. split; [apply assoc_set_same|].
  unfold envList in Hn, Dc, Dp. rewrite Hc in Hn, Dc. rewrite Hp in Dp.
  eapply mergedEnv_distinct; eauto.
  eapply well_formed_firstContainer; eauto.
Qed.

Lemma merge_env_names_distinct_example :
  exists c env,
    firstContainer
      (Service.requestAfter (built [envVar "A" "2"; envVar "B" "3"])
         (snd (Service.call_merge "0.4fzyo82mvyr"
                 (built [envVar "A" "2"; envVar "B" "3"])
                 (deployedWithEnv [envVar "A" "1"; envVar "C" "4"; envVar "D" "5"]))))
    = Some c
    /\ assoc "env" c = Some (JArr env)
    /\ NoDup (map nameOf env).
Proof.
  apply (merge_env_names_distinct "0.4fzyo82mvyr"
           (built [envVar "A" "2"; envVar "B" "3"])
           (deployedWithEnv [envVar "A" "1"; envVar "C" "4"; envVar "D" "5"])
           (snd (Service.call_merge "0.4fzyo82mvyr"
                   (built [envVar "A" "2"; envVar "B" "3"])
                   (deployedWithEnv [envVar "A" "1"; envVar "C" "4"; envVar "D" "5"])))
           [("image", JStr "new"); ("env", JArr [envVar "A" "2"; envVar "B" "3"])]
           [("image", JStr "old");
            ("env", JArr [envVar "A" "1"; envVar "C" "4"; envVar "D" "5"])]).
  - reflexivity.
  - reflexivity.
  - reflexivity.
  - repeat constructor.
  - repeat constructor; simpl; intuition discriminate.
  - repeat constructor; simpl; intuition discriminate.
  - reflexivity.
Defined.

(** C4, as stated, fails: a current env list with a repeated name keeps it.
    The constructor builds such a list from [A=1,A=2]. *)
Lemma merge_keeps_repeated_current_names :
  Service.constructor
    {| ServiceOptions.image := Some "new";
       ServiceOptions.name := Some "svc";
       ServiceOptions.envVars := Some "A=1,A=2";
       ServiceOptions.yaml := None |}
  = Ok (built [envVar "A" "1"; envVar "A" "2"])
  /\ fst (Service.call_merge "0.4fzyo82mvyr" (built [envVar "A" "1"; envVar "A" "2"])
            (deployedWithEnv [envVar "OLD" "x"]))
     = Ok tt
  /\ map nameOf
       (envList
          (Service.requestAfter (built [envVar "A" "1"; envVar "A" "2"])
             (snd (Service.call_merge "0.4fzyo82mvyr"
                     (built [envVar "A" "1"; envVar "A" "2"])
                     (deployedWithEnv [envVar "OLD" "x"])))))
     = [Some (JStr "A"); Some (JStr "A")]
  /\ ~ NoDup
         (map nameOf
            (envList
               (Service.requestAfter (built [envVar "A" "1"; envVar "A" "2"])
                  (snd (Service.call_merge "0.4fzyo82mvyr"
                          (built [envVar "A" "1"; envVar "A" "2"])
                          (deployedWithEnv [envVar "OLD" "x"])))))).
Proof.
  repeat split; try reflexivity.
  intros H.
  change (NoDup [Some (JStr "A"); Some (JStr "A")]) in H.
  inversion H as [|? ? Hnotin _]. apply Hnotin. now left.
Qed.

(** * Further properties of the code *)

(** ** Definitions used to state them *)

(** The text of a list of pairs in the format [parseEnvVars] reads:
    [KEY1=VALUE1,KEY2=VALUE2]. *)
Fixpoint renderEnvVars (pairs : list (string * string)) : string :=
  match pairs with
  | [] => ""
  | (k, v) :: rest =>
      match rest with
      | [] => k ++ "=" ++ v
      | _ :: _ => k ++ "=" ++ v ++ "," ++ renderEnvVars rest
      end
  end.

(** A key or a value that holds neither [=] nor [,]. *)
Definition plain (s : string) : Prop :=
  includes "=" s = false /\ includes "," s = false.

(** The entry [{name: k, value: v}] of a pair. *)
Definition entryOf (p : string * string) : json := envVar (fst p) (snd p).

(** A decimal digit, and a text made of decimal digits. *)
Definition is_digit (c : ascii) : bool :=
  let n := nat_of_ascii c in (48 <=? n)%nat && (n <=? 57)%nat.

Fixpoint all_digits (s : string) : bool :=
  match s with
  | EmptyString => true
  | String c s' => is_digit c && all_digits s'
  end.

(** The decimal value of a text of digits read after [acc]. *)
Fixpoint digits_value (s : string) (acc : Z) : Z :=
  match s with
  | EmptyString => acc
  | String c s' => digits_value s' (10 * acc + (Z.of_nat (nat_of_ascii c) - 48))
  end.

(** The name l.191-198 build from the service name, the counter text and the
    random text. *)
Definition generatedName (serviceName num random36 : string) : string :=
  substring 0 53 serviceName ++ "-" ++ padStart 4 "0" num ++ "-"
  ++ substring 0 3 (keep_lower random36).

(** [spec.template.metadata] of a descriptor, when the objects on the way
    are there. *)
Definition templateMetadata (d : json) : option json :=
  optbind (field "spec" d) (fun s =>
  optbind (field "template" s) (fun t => field "metadata" t)).

(** An env var that has a name, and the name is no object or array. *)
Definition hasName (envVar : json) : Prop :=
  exists v, nameOf envVar = Some v /\ primitive v = true.

(** A service built from a YAML tree whose [metadata] has no name. *)
Definition unnamedService : Service.t :=
  {| Service.request := descriptor [] [] (JArr [JObj [("image", JStr "new")]]);
     Service.name := None |}.

(** A deployed descriptor whose template has no [metadata]. *)
Definition deployedBare : json :=
  JObj [("metadata", JObj [("name", JStr "svc")]);
        ("spec", JObj [("template",
                        JObj [("spec",
                               JObj [("containers",
                                      JArr [JObj [("image", JStr "old")]])])])])].

(** The service [new Service({image: "new", name: "svc"})] builds: no env
    list. *)
Definition builtWithoutEnv : Service.t :=
  {| Service.request :=
       JObj [("apiVersion", JStr "serving.knative.dev/v1");
             ("kind", JStr "Service");
             ("metadata", JObj [("name", JStr "svc")]);
             ("spec",
              JObj [("template",
                     JObj [("spec",
                            JObj [("containers",
                                   JArr [JObj [("image", JStr "new")]])])])])];
     Service.name := Some (JStr "svc") |}.

(** The options [{image, name, envVars}], and the same with a YAML tree. *)
Definition withEnvVars (image name envVars : string) (yaml : option json)
  : ServiceOptions.t :=
  {| ServiceOptions.image := Some image;
     ServiceOptions.name := Some name;
     ServiceOptions.envVars := Some envVars;
     ServiceOptions.yaml := yaml |}.


(** The previous descriptor has nothing to merge into at a key: no value
    there, or one that is neither an object nor an array. *)
Definition nothing_to_merge_into (previous : option json) : bool :=
  match previous with
  | None => true
  | Some v => primitive v
  end.


(** ** [parseEnvVars], further *)

Lemma append_assoc (a b c : string) : (a ++ b) ++ c = a ++ b ++ c.
Proof. induction a as [|x a IH]; simpl; [reflexivity | now rewrite IH]. Qed.

Lemma split_nonempty sep s : split sep s <> [].
Proof.
  destruct s as [|c s]; simpl; [discriminate|].
  destruct (Ascii.eqb c sep); [discriminate|].
  destruct (split sep s); discriminate.
Qed.

(** Splitting at a separator splits the list of tokens. *)
Lemma split_app sep x y :
  split sep (x ++ String sep y) = (split sep x ++ split sep y)%list.
Proof.
  induction x as [|c x IH]; simpl.
  - now rewrite Ascii.eqb_refl.
  - destruct (Ascii.eqb c sep); [now rewrite IH|].
    rewrite IH. pose proof (split_nonempty sep x) as Hne.
    destruct (split sep x) as [|w ws]; [congruence | reflexivity].
Qed.

(** No token holds the separator. *)
Lemma split_tokens_free sep s t : In t (split sep s) -> includes sep t = false.
Proof.
  revert t. induction s as [|c s IH]; simpl; intros t.
  - intros [<- | []]. reflexivity.
  - destruct (Ascii.eqb c sep) eqn:E.
    + intros [<- | H]; [reflexivity | auto].
    + pose proof (split_nonempty sep s) as Hne.
      destruct (split sep s) as [|w ws]; [congruence|].
      intros [<- | H].
      * simpl. rewrite E. apply IH. now left.
      * apply IH. now right.
Qed.

(** A token holds only characters of the text. *)
Lemma split_tokens_sub sep c s t :
  In t (split sep s) -> includes c t = true -> includes c s = true.
Proof.
  revert t. induction s as [|d s IH]; simpl; intros t.
  - intros [<- | []]. discriminate.
  - destruct (Ascii.eqb d sep) eqn:E.
    + intros [<- | H] Hc; [discriminate|].
      rewrite (IH t H Hc). apply orb_true_r.
    + pose proof (split_nonempty sep s) as Hne.
      destruct (split sep s) as [|w ws]; [congruence|].
      intros [<- | H] Hc.
      * simpl in Hc. apply orb_true_iff in Hc as [Hc | Hc].
        -- now rewrite Hc.
        -- rewrite (IH w (or_introl eq_refl) Hc). apply orb_true_r.
      * rewrite (IH t (or_intror H) Hc). apply orb_true_r.
Qed.

(** A text that holds the separator has at least two tokens. *)
Lemma split_two sep s :
  includes sep s = true -> exists a b rest, split sep s = a :: b :: rest.
Proof.
  induction s as [|c s IH]; simpl; [discriminate|].
  destruct (Ascii.eqb c sep) eqn:E.
  - intros _. pose proof (split_nonempty sep s) as Hne.
    destruct (split sep s) as [|w ws]; [congruence|]. eauto.
  - simpl. intros H. destruct (IH H) as (a & b & rest & ->). eauto.
Qed.

Lemma envVarOfToken_ok tok e :
  envVarOfToken tok = Ok e ->
  includes "=" tok = true
  /\ exists n v, e = envVar n v /\ In n (split "=" tok) /\ In v (split "=" tok).
Proof.
  unfold envVarOfToken. destruct (includes "=" tok) eqn:I; [|discriminate].
  cbn [negb]. destruct (split_two "=" tok I) as (a & b & rest & ->).
  cbn. intros [= <-]. split; [reflexivity|].
  exists a, b. repeat split; simpl; auto.
Qed.

(** One entry per comma-delimited token, and neither a name nor a value of
    the result holds [=] or [,]. *)
Theorem parseEnvVars_entries (s : string) (l : list json) :
  parseEnvVars s = Ok l ->
  List.length l = List.length (split "," s)
  /\ Forall (fun e => exists n v, e = envVar n v /\ plain n /\ plain v) l.
Proof.
  unfold parseEnvVars. intros H. apply mapM_ok in H.
  split; [symmetry; eapply Forall2_length, H|].
  assert (forall t, In t (split "," s) -> includes "," t = false) as Hfree
    by (intros t; apply split_tokens_free).
  induction H as [|t e ts es Ht _ IH]; constructor.
  - apply envVarOfToken_ok in Ht as (_ & n & v & -> & Hn & Hv).
    assert (includes "," t = false) as Ct by (apply Hfree; now left).
    exists n, v. repeat split.
    + eapply split_tokens_free, Hn.
    + destruct (includes "," n) eqn:E; [|reflexivity].
      rewrite (split_tokens_sub _ _ _ _ Hn E) in Ct. discriminate.
    + eapply split_tokens_free, Hv.
    + destruct (includes "," v) eqn:E; [|reflexivity].
      rewrite (split_tokens_sub _ _ _ _ Hv E) in Ct. discriminate.
  - apply IH. intros t' Ht'. apply Hfree. now right.
Qed.

Lemma parseEnvVars_entries_example :
  List.length [envVar "A" "1"; envVar "B" "2"] = List.length (split "," "A=1,B=2")
  /\ Forall (fun e => exists n v, e = envVar n v /\ plain n /\ plain v)
       [envVar "A" "1"; envVar "B" "2"].
Proof.
  apply (parseEnvVars_entries "A=1,B=2"). reflexivity.
Defined.

Lemma mapM_app {A B : Type} (f : A -> result B) l1 l2 :
  mapM f (l1 ++ l2)
  = (a <- mapM f l1 ;; b <- mapM f l2 ;; Ok (a ++ b)%list).
Proof.
  induction l1 as [|x l1 IH]; simpl.
  - now destruct (mapM f l2).
  - destruct (f x); simpl; [|reflexivity]. rewrite IH.
    destruct (mapM f l1); simpl; [|reflexivity].
    now destruct (mapM f l2).
Qed.

Lemma mapM_forall {A B : Type} (f : A -> result B) l :
  Forall (fun x => exists y, f x = Ok y) l -> exists ys, mapM f l = Ok ys.
Proof.
  induction 1 as [|x l (y & Hy) _ (ys & IH)]; simpl; [eauto|].
  rewrite Hy, IH. simpl. eauto.
Qed.

(** The error of a map is that of its first element that throws. *)
Lemma mapM_first_error {A B : Type} (f : A -> result B) l e :
  mapM f l = Err e <->
  exists pre x post,
    l = (pre ++ x :: post)%list
    /\ Forall (fun y => exists z, f y = Ok z) pre
    /\ f x = Err e.
Proof.
  split.
  - induction l as [|x l IH]; simpl; [discriminate|].
    destruct (f x) as [y|e'] eqn:E; simpl.
    + destruct (mapM f l) as [ys|e'']; simpl; [discriminate|].
      intros [= ->]. destruct (IH eq_refl) as (pre & x' & post & -> & Hpre & Hx').
      exists (x :: pre), x', post. repeat split; eauto.
    + intros [= ->]. exists [], x, l. repeat split; auto.
  - intros (pre & x & post & -> & Hpre & Hx).
    rewrite mapM_app. destruct (mapM_forall f pre Hpre) as (ys & ->).
    simpl. now rewrite Hx.
Qed.

(** [parseEnvVars] throws for the first token without [=], and for no other
    reason: the tokens before it all hold one. *)
Theorem parseEnvVars_first_error (s : string) (e : error) :
  parseEnvVars s = Err e <->
  exists pre tok post,
    split "," s = (pre ++ tok :: post)%list
    /\ Forall (fun t => includes "=" t = true) pre
    /\ includes "=" tok = false
    /\ e = EnvVarFormat tok.
Proof.
  unfold parseEnvVars. rewrite mapM_first_error. split.
  - intros (pre & tok & post & Hs & Hpre & Htok).
    apply envVarOfToken_err in Htok as [-> Hno].
    exists pre, tok, post. repeat split; auto.
    eapply Forall_impl; [|exact Hpre].
    intros t (z & Hz). now apply envVarOfToken_ok in Hz.
  - intros (pre & tok & post & Hs & Hpre & Hno & ->).
    exists pre, tok, post. repeat split; auto.
    + eapply Forall_impl; [|exact Hpre].
      intros t Ht. unfold envVarOfToken. rewrite Ht. simpl. eauto.
    + unfold envVarOfToken. now rewrite Hno.
Qed.

(** An input that ends with a comma is rejected, whatever stands before. *)
Theorem parseEnvVars_trailing_comma (s : string) :
  exists tok, parseEnvVars (s ++ ",") = Err (EnvVarFormat tok).
Proof.
  apply (parseEnvVars_fails _ "").
  - rewrite split_app. apply in_or_app. right. now left.
  - reflexivity.
Qed.

Lemma plain_pair_token k v :
  plain k -> plain v ->
  includes "," (k ++ "=" ++ v) = false
  /\ envVarOfToken (k ++ "=" ++ v) = Ok (envVar k v).
Proof.
  intros [Hk1 Hk2] [Hv1 Hv2]. split.
  - rewrite includes_app, Hk2. simpl. exact Hv2.
  - unfold envVarOfToken. rewrite includes_app. simpl includes.
    rewrite orb_true_r. cbn [negb].
    change ("=" ++ v) with (String "=" v).
    rewrite (split_at_separator "=" k v Hk1), (split_no_separator "=" v Hv1).
    reflexivity.
Qed.

Lemma renderEnvVars_cons k v p rest :
  renderEnvVars ((k, v) :: p :: rest)
  = (k ++ "=" ++ v) ++ String "," (renderEnvVars (p :: rest)).
Proof.
  change (renderEnvVars ((k, v) :: p :: rest))
    with (k ++ "=" ++ v ++ "," ++ renderEnvVars (p :: rest)).
  now rewrite !append_assoc.
Qed.

(** Round trip: a non-empty list of pairs of plain keys and values, written
    as [KEY1=VALUE1,KEY2=VALUE2], is parsed back into the same pairs, in the
    same order.  Empty keys and empty values are read as such. *)
Theorem parseEnvVars_render (pairs : list (string * string)) :
  pairs <> [] ->
  Forall (fun p => plain (fst p) /\ plain (snd p)) pairs ->
  parseEnvVars (renderEnvVars pairs) = Ok (map entryOf pairs).
Proof.
  intros Hne H. induction H as [|[k v] rest [Hk Hv] Hrest IH]; [congruence|].
  cbn [fst snd] in Hk, Hv.
  destruct (plain_pair_token k v Hk Hv) as [Hc Ht].
  destruct rest as [|p rest].
  - cbn [renderEnvVars map]. unfold parseEnvVars.
    rewrite (split_no_separator "," _ Hc). cbn [mapM]. now rewrite Ht.
  - specialize (IH ltac:(discriminate)).
    rewrite renderEnvVars_cons. unfold parseEnvVars in *.
    rewrite (split_at_separator "," _ _ Hc). cbn [mapM].
    rewrite Ht, IH. reflexivity.
Qed.

Lemma parseEnvVars_render_example :
  parseEnvVars "KEY1=VALUE1,EMPTY=,=anonymous"
  = Ok [envVar "KEY1" "VALUE1"; envVar "EMPTY" ""; envVar "" "anonymous"].
Proof.
  apply (parseEnvVars_render [("KEY1", "VALUE1"); ("EMPTY", ""); ("", "anonymous")]).
  - discriminate.
  - repeat constructor.
Defined.

(** ** [generateRevisionName], further *)

(** *** [parseInt] on decimal digits *)

Lemma digit_value_digit c :
  is_digit c = true ->
  digit_value c = Some (Z.of_nat (nat_of_ascii c) - 48)%Z
  /\ (Z.of_nat (nat_of_ascii c) - 48 <? 10)%Z = true.
Proof.
  unfold is_digit, digit_value. cbv zeta.
  rewrite andb_true_iff, Nat.leb_le, Nat.leb_le. intros [H1 H2].
  replace ((48 <=? Z.of_nat (nat_of_ascii c))%Z && (Z.of_nat (nat_of_ascii c) <=? 57)%Z)
    with true by (symmetry; apply andb_true_iff; split; apply Z.leb_le; lia).
  split; [reflexivity | apply Z.ltb_lt; lia].
Qed.

Lemma parse_digits_decimal s acc :
  all_digits s = true ->
  parse_digits 10 s (Some acc) = Some (digits_value s acc).
Proof.
  revert acc. induction s as [|c s IH]; intros acc; simpl; [reflexivity|].
  rewrite andb_true_iff. intros [Hc Hs].
  destruct (digit_value_digit c Hc) as [-> ->]. now rewrite IH.
Qed.

Lemma parse_digits_decimal_start s :
  all_digits s = true -> s <> "" ->
  parse_digits 10 s None = Some (digits_value s 0).
Proof.
  destruct s as [|c s]; [congruence|]. simpl.
  rewrite andb_true_iff. intros [Hc Hs] _.
  destruct (digit_value_digit c Hc) as [-> ->]. now rewrite parse_digits_decimal.
Qed.

Lemma digit_not_space c : is_digit c = true -> is_js_space c = false.
Proof.
  unfold is_digit, is_js_space. cbv zeta.
  rewrite andb_true_iff, Nat.leb_le, Nat.leb_le. intros [H1 H2].
  repeat (apply orb_false_iff; split).
  - apply andb_false_iff. right. apply Nat.leb_gt. lia.
  - apply Nat.eqb_neq. lia.
  - apply Nat.eqb_neq. lia.
Qed.

(** The ten digits, one by one. *)
Lemma digit_cases c :
  is_digit c = true ->
  c = "0"%char \/ c = "1"%char \/ c = "2"%char \/ c = "3"%char \/ c = "4"%char
  \/ c = "5"%char \/ c = "6"%char \/ c = "7"%char \/ c = "8"%char \/ c = "9"%char.
Proof.
  destruct c as [b0 b1 b2 b3 b4 b5 b6 b7].
  destruct b0, b1, b2, b3, b4, b5, b6, b7; intros H;
    try discriminate H; tauto.
Qed.

(** [parseInt] reads a text of decimal digits in base 10, leading zeros
    included. *)
Lemma parseInt_decimal s :
  all_digits s = true -> s <> "" -> parseInt (Some s) = Some (digits_value s 0).
Proof.
  intros Hs Hne. pose proof (parse_digits_decimal_start s Hs Hne) as P.
  destruct s as [|c s]; [congruence|].
  pose proof Hs as Hs'. simpl in Hs'. apply andb_true_iff in Hs' as [Hc Hr].
  unfold parseInt. cbn [trim_start]. rewrite (digit_not_space c Hc).
  destruct s as [|c2 s].
  - destruct (digit_cases c Hc) as [-> | [-> | [-> | [-> | [-> | [-> | [-> | [-> | [-> | ->]]]]]]]]];
      reflexivity.
  - pose proof Hr as Hr'. simpl in Hr'. apply andb_true_iff in Hr' as [Hc2 _].
    destruct (digit_cases c Hc) as [-> | [-> | [-> | [-> | [-> | [-> | [-> | [-> | [-> | ->]]]]]]]]];
      try (cbv beta iota zeta; rewrite P; destruct (digits_value _ 0); reflexivity).
    destruct (digit_cases c2 Hc2) as [-> | [-> | [-> | [-> | [-> | [-> | [-> | [-> | [-> | ->]]]]]]]]];
      cbv beta iota zeta; rewrite P; destruct (digits_value _ 0); reflexivity.
Qed.

(** *** [toString] and [padStart] on the counter *)

Lemma all_digits_app a b : all_digits (a ++ b) = all_digits a && all_digits b.
Proof.
  induction a as [|c a IH]; simpl; [reflexivity|]. now rewrite IH, andb_assoc.
Qed.

Lemma digits_value_app a b acc :
  digits_value (a ++ b) acc = digits_value b (digits_value a acc).
Proof. revert acc. induction a as [|c a IH]; intros acc; simpl; auto. Qed.

Lemma all_digits_zeros n : all_digits (repeat_char "0" n) = true.
Proof. induction n; simpl; auto. Qed.

Lemma digits_value_zeros n : digits_value (repeat_char "0" n) 0 = 0%Z.
Proof. induction n; simpl; auto. Qed.

Lemma all_digits_uint d : all_digits (NilEmpty.string_of_uint d) = true.
Proof. induction d; simpl; auto. Qed.

Lemma digits_value_uint_acc d acc :
  digits_value (NilEmpty.string_of_uint d) (Z.pos acc) = Z.pos (Pos.of_uint_acc d acc).
Proof.
  revert acc. induction d as [|d IH|d IH|d IH|d IH|d IH|d IH|d IH|d IH|d IH|d IH];
    intros acc; cbn [NilEmpty.string_of_uint digits_value Pos.of_uint_acc];
    [reflexivity|..];
    match goal with
    | |- context [Z.of_nat (nat_of_ascii ?c)] =>
        let k := eval vm_compute in (Z.of_nat (nat_of_ascii c)) in
        change (Z.of_nat (nat_of_ascii c)) with k
    end;
    match goal with
    | |- digits_value _ ?z = Z.pos (Pos.of_uint_acc _ ?a) =>
        replace z with (Z.pos a) by lia
    end; apply IH.
Qed.

Lemma digits_value_uint d :
  digits_value (NilEmpty.string_of_uint d) 0 = Z.of_N (Pos.of_uint d).
Proof.
  induction d as [|d IH|d IH|d IH|d IH|d IH|d IH|d IH|d IH|d IH|d IH];
    cbn [NilEmpty.string_of_uint digits_value Pos.of_uint];
    [reflexivity | exact IH | ..];
    match goal with
    | |- digits_value _ ?z = Z.of_N (N.pos (Pos.of_uint_acc _ ?a)) =>
        change z with (Z.pos a)
    end; apply digits_value_uint_acc.
Qed.

(** The text of a natural number: decimal digits that read back as it. *)
Lemma toString_digits n :
  (0 <= n)%Z ->
  all_digits (toString n) = true
  /\ toString n <> ""
  /\ digits_value (toString n) 0 = n.
Proof.
  destruct n as [|p|p]; [intros _ | intros _ | lia].
  - repeat split. discriminate.
  - unfold toString. cbn [Z.to_int NilZero.string_of_int NilZero.string_of_uint].
    pose proof (Unsigned.to_uint_nonnil p) as Hnn.
    pose proof (Unsigned.of_to p) as Hof.
    destruct (Pos.to_uint p) as [|d|d|d|d|d|d|d|d|d|d] eqn:E; [congruence|..];
      change (NilZero.string_of_uint ?x) with (NilEmpty.string_of_uint x);
      (split; [apply all_digits_uint|]; split; [discriminate|];
       rewrite digits_value_uint, Hof; reflexivity).
Qed.

Lemma padStart_digits n s :
  all_digits s = true ->
  all_digits (padStart n "0" s) = true
  /\ digits_value (padStart n "0" s) 0 = digits_value s 0.
Proof.
  intros H. unfold padStart. split.
  - now rewrite all_digits_app, all_digits_zeros.
  - now rewrite digits_value_app, digits_value_zeros.
Qed.

Lemma app_nonempty a c b : a ++ String c b <> "".
Proof. destruct a; discriminate. Qed.

Lemma padStart_nonempty n c s : s <> "" -> padStart n c s <> "".
Proof.
  unfold padStart. destruct s as [|d s]; [congruence|]. intros _. apply app_nonempty.
Qed.

(** *** Hyphens *)

Lemma digits_no_hyphen s : all_digits s = true -> includes "-" s = false.
Proof.
  induction s as [|c s IH]; simpl; [reflexivity|].
  rewrite andb_true_iff. intros [Hc Hs]. rewrite IH by assumption.
  destruct (Ascii.eqb c "-") eqn:E; [|reflexivity].
  apply Ascii.eqb_eq in E. subst c. discriminate Hc.
Qed.

Lemma keep_lower_no_hyphen s : includes "-" (keep_lower s) = false.
Proof.
  induction s as [|c s IH]; simpl; [reflexivity|].
  destruct (is_lower c) eqn:L; [|exact IH]. simpl. rewrite IH.
  destruct (Ascii.eqb c "-") eqn:E; [|reflexivity].
  apply Ascii.eqb_eq in E. subst c. discriminate L.
Qed.

Lemma substring_includes c n s :
  includes c s = false -> includes c (substring 0 n s) = false.
Proof.
  revert s. induction n as [|n IH]; intros [|d s]; simpl; try reflexivity.
  rewrite !orb_false_iff. intros [H1 H2]. auto.
Qed.

Lemma letters_no_hyphen random36 :
  includes "-" (substring 0 3 (keep_lower random36)) = false.
Proof. apply substring_includes, keep_lower_no_hyphen. Qed.

(** *** The counter *)

Lemma second_to_last {A : Type} (l : list A) (b c : A) :
  (List.length (l ++ [b; c]) <? 2)%nat = false
  /\ nth_error (l ++ [b; c]) (List.length (l ++ [b; c]) - 2) = Some b.
Proof.
  rewrite List.length_app. cbn [List.length]. split.
  - apply Nat.ltb_ge. lia.
  - replace (List.length l + 2 - 2) with (List.length l) by lia.
    rewrite nth_error_app2 by lia. now rewrite Nat.sub_diag.
Qed.

(** l.185-186: the counter is read from the second-to-last hyphen-separated
    segment, whatever the hyphens before it. *)
Lemma nextNumber_segment (a b c : string) :
  includes "-" b = false -> includes "-" c = false ->
  Service.nextNumber (Some (JStr (a ++ "-" ++ b ++ "-" ++ c)))
  = match parseInt (Some b) with
    | None => Ok "NaN"
    | Some n =>
        if (Z.abs n <=? MAX_SAFE_INTEGER)%Z then Ok (toString (n + 1))
        else Err Unmodelled
    end.
Proof.
  intros Hb Hc. unfold Service.nextNumber.
  change (a ++ "-" ++ b ++ "-" ++ c) with (a ++ String "-" (b ++ String "-" c)).
  rewrite truthy_text by apply app_nonempty.
  rewrite split_app, (split_at_separator "-" b c Hb), (split_no_separator "-" c Hc).
  destruct (second_to_last (split "-" a) b c) as [-> ->]. reflexivity.
Qed.

(** *** Generated names *)

(** The first revision: with neither a revision name nor a previous one
    (absent, [null] or empty), the counter is [0001]. *)
Theorem first_revision_name
    (s random36 : string) (name prevName : option json) :
  truthy name = false ->
  truthy prevName = false ->
  Service.generateRevisionName (Some (JStr s)) random36 name prevName
  = Ok (JStr (substring 0 53 s ++ "-0001-" ++ substring 0 3 (keep_lower random36))).
Proof.
  intros Tn Tp. unfold Service.generateRevisionName, Service.nextNumber.
  rewrite Tn, Tp. cbn [bind]. now destruct name.
Qed.

Lemma first_revision_name_example :
  Service.generateRevisionName (Some (JStr "svc")) "0.4fzyo82mvyr" None (Some (JStr ""))
  = Ok (JStr "svc-0001-fzy").
Proof.
  apply (first_revision_name "svc" "0.4fzyo82mvyr" None (Some (JStr ""))); reflexivity.
Defined.

Lemma generated_after_digits (s random36 p ds l : string) :
  all_digits ds = true -> ds <> "" ->
  includes "-" l = false ->
  (digits_value ds 0 <= MAX_SAFE_INTEGER)%Z ->
  Service.generateRevisionName (Some (JStr s)) random36 None
    (Some (JStr (p ++ "-" ++ ds ++ "-" ++ l)))
  = Ok (JStr (generatedName s (toString (digits_value ds 0 + 1)) random36)).
Proof.
  intros Hd Hne Hl Hmax.
  rewrite (generated_name_format s random36 _ (toString (digits_value ds 0 + 1)));
    [reflexivity|].
  rewrite (nextNumber_segment p ds l (digits_no_hyphen ds Hd) Hl).
  rewrite (parseInt_decimal ds Hd Hne).
  assert (0 <= digits_value ds 0)%Z as Hpos.
  { assert (forall t acc, all_digits t = true -> (0 <= acc)%Z -> (0 <= digits_value t acc)%Z) as G.
    { induction t as [|c t IH]; intros acc; cbn [all_digits digits_value]; [auto|].
      rewrite andb_true_iff. intros [Hc Ht] Ha. apply IH; [assumption|].
      unfold is_digit in Hc. cbv zeta in Hc.
      rewrite andb_true_iff, Nat.leb_le, Nat.leb_le in Hc. lia. }
    apply G; [assumption | lia]. }
  replace (Z.abs (digits_value ds 0) <=? MAX_SAFE_INTEGER)%Z with true; [reflexivity|].
  symmetry. apply Z.leb_le. lia.
Qed.

(** The counter is the decimal value of the second-to-last hyphen-separated
    segment of the previous name, plus one: leading zeros do not make it
    octal, and hyphens in the service name do not matter. *)
Theorem counter_follows_previous_name
    (s random36 p ds l : string) :
  all_digits ds = true -> ds <> "" ->
  includes "-" l = false ->
  (digits_value ds 0 <= MAX_SAFE_INTEGER)%Z ->
  Service.generateRevisionName (Some (JStr s)) random36 None
    (Some (JStr (p ++ "-" ++ ds ++ "-" ++ l)))
  = Ok (JStr (generatedName s (toString (digits_value ds 0 + 1)) random36)).
Proof. exact (generated_after_digits s random36 p ds l). Qed.

Lemma counter_follows_previous_name_example :
  Service.generateRevisionName (Some (JStr "svc")) "0.4fzyo82mvyr" None
    (Some (JStr "my-service-0099-abc"))
  = Ok (JStr "svc-0100-fzy").
Proof.
  apply (counter_follows_previous_name "svc" "0.4fzyo82mvyr" "my-service" "0099" "abc");
    [reflexivity | discriminate | reflexivity | vm_compute; discriminate].
Defined.

(** Successive deployments count up: the name generated from a generated
    name of counter [n] has the counter [n + 1]. *)
Theorem successive_revisions_count_up
    (s s' random36 random36' : string) (n : Z) :
  (0 <= n <= MAX_SAFE_INTEGER)%Z ->
  Service.generateRevisionName (Some (JStr s')) random36' None
    (Some (JStr (generatedName s (toString n) random36)))
  = Ok (JStr (generatedName s' (toString (n + 1)) random36')).
Proof.
  intros [H0 Hmax].
  destruct (toString_digits n H0) as (Hd & Hne & Hv).
  destruct (padStart_digits 4 (toString n) Hd) as [Hpd Hpv].
  unfold generatedName at 1.
  rewrite (generated_after_digits s' random36' _ (padStart 4 "0" (toString n)) _).
  - now rewrite Hpv, Hv.
  - exact Hpd.
  - now apply padStart_nonempty.
  - apply letters_no_hyphen.
  - rewrite Hpv, Hv. exact Hmax.
Qed.

Lemma successive_revisions_count_up_example :
  Service.generateRevisionName (Some (JStr "svc")) "0.9zzk1" None
    (Some (JStr (generatedName "svc" (toString 9999) "0.4fzyo82mvyr")))
  = Ok (JStr "svc-10000-zzk").
Proof.
  apply (successive_revisions_count_up "svc" "svc" "0.4fzyo82mvyr" "0.9zzk1" 9999).
  vm_compute. split; discriminate.
Defined.

(** A previous name with no hyphen has no second-to-last segment: the
    counter is [NaN], padded to [0NaN].  The revision generated after that
    one reads [0NaN] as 0 and counts from [0001] again. *)
Theorem counter_not_a_number
    (s s' random36 random36' p : string) :
  p <> "" -> includes "-" p = false ->
  Service.generateRevisionName (Some (JStr s)) random36 None (Some (JStr p))
  = Ok (JStr (substring 0 53 s ++ "-0NaN-" ++ substring 0 3 (keep_lower random36)))
  /\ Service.generateRevisionName (Some (JStr s')) random36' None
       (Some (JStr (substring 0 53 s ++ "-0NaN-" ++ substring 0 3 (keep_lower random36))))
     = Ok (JStr (substring 0 53 s' ++ "-0001-" ++ substring 0 3 (keep_lower random36'))).
Proof.
  intros Hne Hp. split.
  - rewrite (generated_name_format s random36 _ "NaN"); [reflexivity|].
    unfold Service.nextNumber. rewrite (truthy_text p Hne).
    now rewrite (split_no_separator "-" p Hp).
  - rewrite (generated_name_format s' random36' _ "1"); [reflexivity|].
    change (substring 0 53 s ++ "-0NaN-" ++ substring 0 3 (keep_lower random36))
      with (substring 0 53 s ++ "-" ++ "0NaN" ++ "-" ++ substring 0 3 (keep_lower random36)).
    rewrite nextNumber_segment; [reflexivity | reflexivity | apply letters_no_hyphen].
Qed.

Lemma counter_not_a_number_example :
  Service.generateRevisionName (Some (JStr "svc")) "0.4fzyo82mvyr" None (Some (JStr "first"))
  = Ok (JStr "svc-0NaN-fzy")
  /\ Service.generateRevisionName (Some (JStr "svc")) "0.9zzk1" None
       (Some (JStr "svc-0NaN-fzy"))
     = Ok (JStr "svc-0001-zzk").
Proof.
  apply (counter_not_a_number "svc" "svc" "0.4fzyo82mvyr" "0.9zzk1" "first");
    [discriminate | reflexivity].
Defined.


(** ** [merge], further *)

(** l.170 writes below [spec.template.spec] only. *)
Lemma assign_env_frame d c0 v d' :
  firstContainer d = Some c0 ->
  assign d Service.firstContainerPath "env" v = Ok d' ->
  (forall k, k <> "spec" -> field k d' = field k d)
  /\ read (Some d') Service.revisionNamePath = read (Some d) Service.revisionNamePath.
Proof.
  intros H.
  destruct (firstContainer_shape _ _ H) as (f & s & t & s2 & rest & -> & E1 & E2 & E3 & E4).
  unfold Service.firstContainerPath, Service.revisionNamePath, Service.spec,
    Service.template, Service.containers, Service.metadata.
  cbn [assign].
  rewrite member_obj, E1. cbn [bind].
  rewrite member_obj, E2. cbn [bind].
  rewrite member_obj, E3. cbn [bind].
  rewrite member_obj, E4. cbn [bind].
  cbn [member prop nth_error put bind with_child key_text list_set].
  intros [= <-]. split.
  - intros k Hk. cbn [field]. now apply assoc_set_other.
  - cbn [read]. rewrite !member_obj, assoc_set_same, E1. cbn [bind].
    rewrite !member_obj, assoc_set_same, E2. cbn [bind].
    rewrite !member_obj. now rewrite assoc_set_other by discriminate.
Qed.

(** l.147 writes [spec.template.metadata.name] only. *)
Lemma assign_name_frame d c0 g d' :
  firstContainer d = Some c0 ->
  assign d [Service.spec; Service.template; Service.metadata] "name" g = Ok d' ->
  (forall k, k <> "spec" -> field k d' = field k d)
  /\ read (Some d') Service.revisionNamePath = Ok (Some g).
Proof.
  intros H.
  destruct (firstContainer_shape _ _ H) as (f & s & t & s2 & rest & -> & E1 & E2 & E3 & E4).
  unfold Service.revisionNamePath, Service.spec, Service.template, Service.metadata.
  cbn [assign].
  rewrite member_obj, E1. cbn [bind].
  rewrite member_obj, E2. cbn [bind].
  rewrite member_obj.
  destruct (assoc "metadata" t) as [m|] eqn:Em; cbn [bind]; [|discriminate].
  destruct m as [| | | | |mf]; try discriminate.
  cbn [assign put bind with_child key_text]. intros [= <-]. split.
  - intros k Hk. cbn [field]. now apply assoc_set_other.
  - cbn [read]. rewrite member_obj, assoc_set_same. cbn [bind].
    rewrite member_obj, assoc_set_same. cbn [bind].
    rewrite member_obj, assoc_set_same. cbn [bind].
    rewrite member_obj, assoc_set_same. reflexivity.
Qed.

(** The revision name of the result is the one [generateRevisionName]
    returned, whatever the deep merge had left there. *)
Theorem merge_sets_revision_name
    (random36 : string) (this : Service.t) (prev : json) (st : Service.store)
    (c0 p0 : list (string * json)) :
  well_formed (Service.request this) = true ->
  firstContainer (Service.request this) = Some c0 ->
  firstContainer prev = Some p0 ->
  Service.call_merge random36 this prev = (Ok tt, st) ->
  exists generated,
    Service.generateRevisionName (Service.name this) random36
      (lodash.get (Some (Service.request this)) Service.revisionNamePath)
      (lodash.get (Some prev) Service.revisionNamePath) = Ok generated
    /\ read (Some (Service.requestAfter this st)) Service.revisionNamePath
       = Ok (Some generated).
Proof.
  intros W Hc Hp H.
  apply merge_ok_inv in H
    as (merged & g & nm & pe & ce & env & Hm & Hg & Hnm & _ & _ & _ & Hf & Hr).
  apply lodash_merge_ok in Hm. subst merged.
  pose proof (firstContainer_merged _ _ _ _ W Hc Hp) as Fm.
  pose proof (assign_name _ _ _ _ Fm Hnm) as Fn.
  destruct (assign_name_frame _ _ _ _ Fm Hnm) as [_ Rn].
  destruct (assign_env_frame _ _ _ _ Fn Hf) as [_ Rf].
  exists g. split; [exact Hg|].
  unfold Service.requestAfter. rewrite Hr. congruence.
Qed.

Lemma merge_sets_revision_name_example :
  exists generated,
    Service.generateRevisionName (Some (JStr "svc")) "0.4fzyo82mvyr"
      (lodash.get (Some (Service.request (built [envVar "A" "2"]))) Service.revisionNamePath)
      (lodash.get (Some (deployedWithEnv [envVar "A" "1"])) Service.revisionNamePath)
    = Ok generated
    /\ read (Some (Service.requestAfter (built [envVar "A" "2"])
                     (snd (Service.call_merge "0.4fzyo82mvyr" (built [envVar "A" "2"])
                             (deployedWithEnv [envVar "A" "1"])))))
         Service.revisionNamePath
       = Ok (Some generated).
Proof.
  apply (merge_sets_revision_name "0.4fzyo82mvyr" (built [envVar "A" "2"])
           (deployedWithEnv [envVar "A" "1"])
           (snd (Service.call_merge "0.4fzyo82mvyr" (built [envVar "A" "2"])
                   (deployedWithEnv [envVar "A" "1"])))
           [("image", JStr "new"); ("env", JArr [envVar "A" "2"])]
           [("image", JStr "old"); ("env", JArr [envVar "A" "1"])]);
    reflexivity.
Defined.

(** Outside [spec], and in the first container outside [env], the result of
    [merge] is the deep merge: a field that only the previous descriptor has
    is kept, a field of the current descriptor is merged onto it. *)
Theorem merge_keeps_other_fields
    (random36 : string) (this : Service.t) (prev : json) (st : Service.store)
    (c0 p0 : list (string * json)) :
  well_formed (Service.request this) = true ->
  firstContainer (Service.request this) = Some c0 ->
  firstContainer prev = Some p0 ->
  Service.call_merge random36 this prev = (Ok tt, st) ->
  (forall k, k <> "spec" ->
     field k (Service.requestAfter this st)
     = match field k (Service.request this) with
       | Some v => Some (lodash.mergeValue v (field k prev))
       | None => field k prev
       end)
  /\ exists c,
       firstContainer (Service.requestAfter this st) = Some c
       /\ forall k, k <> "env" ->
            assoc k c
            = match assoc k c0 with
              | Some v => Some (lodash.mergeValue v (assoc k p0))
              | None => assoc k p0
              end.
Proof.
  intros W Hc Hp H.
  apply merge_ok_inv in H
    as (merged & g & nm & pe & ce & env & Hm & Hg & Hnm & _ & _ & _ & Hf & Hr).
  apply lodash_merge_ok in Hm. subst merged.
  pose proof (firstContainer_merged _ _ _ _ W Hc Hp) as Fm.
  pose proof (assign_name _ _ _ _ Fm Hnm) as Fn.
  pose proof (assign_env _ _ _ _ Fn Hf) as Ff.
  destruct (assign_name_frame _ _ _ _ Fm Hnm) as [Kn _].
  destruct (assign_env_frame _ _ _ _ Fn Hf) as [Kf _].
  unfold Service.requestAfter. rewrite Hr. split.
  - intros k Hk. rewrite (Kf k Hk), (Kn k Hk).
    destruct (firstContainer_shape _ _ Hc) as (cf & ? & ? & ? & ? & Ec & _).
    destruct (firstContainer_shape _ _ Hp) as (pf & ? & ? & ? & ? & Ep & _).
    rewrite Ec, Ep in *. rewrite field_mergeValue by now apply well_formed_keys.
    reflexivity.
  - eexists. split; [exact Ff|]. intros k Hk.
    rewrite assoc_set_other by congruence.
    pose proof (well_formed_firstContainer _ _ W Hc) as W0.
    destruct (assoc k c0) as [v|] eqn:E.
    + now apply merge_fields_present; [apply well_formed_keys|].
    + now apply merge_fields_absent.
Qed.

Lemma merge_keeps_other_fields_example :
  (forall k, k <> "spec" ->
     field k (Service.requestAfter (built [envVar "A" "2"])
                (snd (Service.call_merge "0.4fzyo82mvyr" (built [envVar "A" "2"])
                        (deployed [("image", JStr "old"); ("ports", JArr [JNum 8080])]))))
     = match field k (Service.request (built [envVar "A" "2"])) with
       | Some v => Some (lodash.mergeValue v
                           (field k (deployed [("image", JStr "old");
                                               ("ports", JArr [JNum 8080])])))
       | None => field k (deployed [("image", JStr "old"); ("ports", JArr [JNum 8080])])
       end)
  /\ exists c,
       firstContainer
         (Service.requestAfter (built [envVar "A" "2"])
            (snd (Service.call_merge "0.4fzyo82mvyr" (built [envVar "A" "2"])
                    (deployed [("image", JStr "old"); ("ports", JArr [JNum 8080])]))))
       = Some c
       /\ forall k, k <> "env" ->
            assoc k c
            = match assoc k [("image", JStr "new"); ("env", JArr [envVar "A" "2"])] with
              | Some v => Some (lodash.mergeValue v
                                  (assoc k [("image", JStr "old");
                                            ("ports", JArr [JNum 8080])]))
              | None => assoc k [("image", JStr "old"); ("ports", JArr [JNum 8080])]
              end.
Proof.
  apply (merge_keeps_other_fields "0.4fzyo82mvyr" (built [envVar "A" "2"])
           (deployed [("image", JStr "old"); ("ports", JArr [JNum 8080])])); reflexivity.
Defined.

(** Without a revision name in the current descriptor, the name is generated
    from [this.name]; a service whose name is not a string (a YAML tree
    whose [metadata] has no name, and no name input) cannot be merged. *)
Theorem merge_needs_a_service_name
    (random36 : string) (this : Service.t) (prev : json) :
  (forall s, Service.name this <> Some (JStr s)) ->
  truthy (lodash.get (Some (Service.request this)) Service.revisionNamePath) = false ->
  fst (Service.call_merge random36 this prev) <> Ok tt.
Proof.
  intros Hname Hrev H.
  destruct (Service.call_merge random36 this prev) as [r st] eqn:E.
  cbn [fst] in H. subst r.
  apply merge_ok_inv in E as (merged & g & nm & pe & ce & env & _ & Hg & _).
  revert Hg. unfold Service.generateRevisionName. rewrite Hrev. cbn [bind].
  destruct (lodash.get _ _) as [n|];
    (destruct (Service.nextNumber _) as [num|e]; cbn [bind]; [|discriminate];
     destruct (Service.name this) as [[| | |s| |]|] eqn:N; try discriminate;
     now elim (Hname s)).
Qed.

Lemma merge_needs_a_service_name_example :
  fst (Service.call_merge "0.4fzyo82mvyr" unnamedService (deployedWithEnv [])) <> Ok tt.
Proof.
  apply (merge_needs_a_service_name "0.4fzyo82mvyr" unnamedService (deployedWithEnv []));
    [discriminate | reflexivity].
Defined.

Lemma merge_env_list_example :
  envList
    (Service.requestAfter (built [envVar "A" "2"])
       (snd (Service.call_merge "0.4fzyo82mvyr" (built [envVar "A" "2"])
               (deployedWithEnv [envVar "OLD" "x"; envVar "B" "3"]))))
  = ([envVar "A" "2"]
     ++ filter (isNew (map nameOf [envVar "A" "2"]))
          (lodash.merge_items lodash.mergeValue [envVar "A" "2"]
             (envList (deployedWithEnv [envVar "OLD" "x"; envVar "B" "3"]))))%list.
Proof.
  apply (merge_env_list "0.4fzyo82mvyr" (built [envVar "A" "2"])
           (deployedWithEnv [envVar "OLD" "x"; envVar "B" "3"])
           (snd (Service.call_merge "0.4fzyo82mvyr" (built [envVar "A" "2"])
                   (deployedWithEnv [envVar "OLD" "x"; envVar "B" "3"])))
           [("image", JStr "new"); ("env", JArr [envVar "A" "2"])]
           [("image", JStr "old"); ("env", JArr [envVar "OLD" "x"; envVar "B" "3"])]);
    reflexivity.
Defined.

Lemma isNew_no_keys l : filter (isNew []) l = l.
Proof. induction l as [|x l IH]; simpl; [reflexivity | now rewrite IH]. Qed.

(** A service without an env list (no env vars input) keeps the env list of
    the previous descriptor as it is. *)
Theorem merge_without_env_keeps_previous
    (random36 : string) (this : Service.t) (prev : json) (st : Service.store)
    (c0 p0 : list (string * json)) :
  well_formed (Service.request this) = true ->
  firstContainer (Service.request this) = Some c0 ->
  firstContainer prev = Some p0 ->
  assoc "env" c0 = None ->
  Service.call_merge random36 this prev = (Ok tt, st) ->
  envList (Service.requestAfter this st) = envList prev.
Proof.
  intros W Hc Hp Ec H.
  apply merge_ok_inv in H
    as (merged & g & nm & pe & cev & env & Hm & _ & Hnm & Hpe & Hce & He & Hf & Hr).
  apply lodash_merge_ok in Hm. subst merged.
  pose proof (firstContainer_merged _ _ _ _ W Hc Hp) as Fm.
  pose proof (assign_name _ _ _ _ Fm Hnm) as Fn.
  rewrite (read_env _ _ Fn) in Hpe. injection Hpe as <-.
  rewrite (read_env _ _ Hc) in Hce. injection Hce as <-.
  pose proof (assign_env _ _ _ _ Fn Hf) as Ff.
  unfold Service.requestAfter. rewrite Hr.
  unfold envList. rewrite Ff, assoc_set_same, Hp.
  rewrite (merge_fields_absent _ _ _ _ Ec), Ec in He.
  unfold Service.mergedEnv in He. cbn [truthy bind mapM] in He.
  destruct (assoc "env" p0) as [[|b|n|s|l|fs]|]; try discriminate;
    try (now injection He as <-).
  apply pushOld_ok in He. subst env. cbn [app]. apply isNew_no_keys.
Qed.

Lemma merge_without_env_keeps_previous_example :
  envList
    (Service.requestAfter builtWithoutEnv
       (snd (Service.call_merge "0.4fzyo82mvyr" builtWithoutEnv
               (deployedWithEnv [envVar "A" "1"; envVar "B" "2"]))))
  = envList (deployedWithEnv [envVar "A" "1"; envVar "B" "2"]).
Proof.
  apply (merge_without_env_keeps_previous "0.4fzyo82mvyr" builtWithoutEnv
           (deployedWithEnv [envVar "A" "1"; envVar "B" "2"])
           (snd (Service.call_merge "0.4fzyo82mvyr" builtWithoutEnv
                   (deployedWithEnv [envVar "A" "1"; envVar "B" "2"])))
           [("image", JStr "new")]
           [("image", JStr "old"); ("env", JArr [envVar "A" "1"; envVar "B" "2"])]);
    reflexivity.
Defined.

(** The items of the deep-merged list that stand at the positions of the
    current env vars carry their names and are never pushed. *)
Lemma merged_heads_skipped keys ce pe :
  Forall hasName ce ->
  Forall (fun x => well_formed x = true) ce ->
  (forall x, In x ce -> In (nameOf x) keys) ->
  filter (isNew keys) (lodash.merge_items lodash.mergeValue ce pe)
  = filter (isNew keys) (skipn (List.length ce) pe).
Proof.
  intros Hn Hw Hk. revert pe.
  induction ce as [|c ce IH]; intros pe; cbn [lodash.merge_items List.length skipn];
    [reflexivity|].
  inversion Hn as [|? ? (v & Nc & Pv) Hn']; subst.
  inversion Hw as [|? ? Wc Hw']; subst.
  assert (primitiveName c) as Pc by (unfold primitiveName; now rewrite Nc).
  assert (forall o, isNew keys (lodash.mergeValue c o) = false) as Skip.
  { intros o. unfold isNew. rewrite (nameOf_mergeValue c o Wc Pc), Nc.
    rewrite keysInclude_primitive; [reflexivity | | exact Pv].
    rewrite <- Nc. apply Hk. now left. }
  assert (forall x, In x ce -> In (nameOf x) keys) as Hk'
    by (intros x Hx; apply Hk; now right).
  destruct pe as [|p pe]; cbn [filter]; rewrite Skip.
  - rewrite (IH Hn' Hw' Hk' []). now rewrite skipn_nil.
  - apply (IH Hn' Hw' Hk').
Qed.

(** When every current env var has a name, the merged env list is the
    current list followed by the previous env vars that stand past its
    length and whose name is not a current one.  A previous env var at a
    position below the length of the current list is never carried over,
    whatever its name. *)
Theorem merge_env_by_position
    (random36 : string) (this : Service.t) (prev : json) (st : Service.store)
    (c0 p0 : list (string * json)) (ce : list json) :
  well_formed (Service.request this) = true ->
  firstContainer (Service.request this) = Some c0 ->
  firstContainer prev = Some p0 ->
  assoc "env" c0 = Some (JArr ce) ->
  Forall hasName ce ->
  Service.call_merge random36 this prev = (Ok tt, st) ->
  envList (Service.requestAfter this st)
  = (ce ++ filter (isNew (map nameOf ce)) (skipn (List.length ce) (envList prev)))%list.
Proof.
  intros W Hc Hp Ec Hn H.
  apply merge_ok_inv in H
    as (merged & g & nm & pe & cev & env & Hm & _ & Hnm & Hpe & Hce & He & Hf & Hr).
  apply lodash_merge_ok in Hm. subst merged.
  pose proof (firstContainer_merged _ _ _ _ W Hc Hp) as Fm.
  pose proof (assign_name _ _ _ _ Fm Hnm) as Fn.
  rewrite (read_env _ _ Fn) in Hpe. injection Hpe as <-.
  rewrite (read_env _ _ Hc) in Hce. injection Hce as <-.
  pose proof (assign_env _ _ _ _ Fn Hf) as Ff.
  unfold Service.requestAfter. rewrite Hr.
  unfold envList at 1. rewrite Ff, assoc_set_same.
  pose proof (well_formed_firstContainer _ _ W Hc) as W0.
  pose proof (well_formed_field _ _ _ W0 Ec) as Wce.
  rewrite (merge_fields_present _ _ _ _ _ (well_formed_keys _ W0) Ec) in He.
  rewrite Ec, mergeValue_arr in He.
  unfold Service.mergedEnv in He. cbn [truthy bind] in He.
  destruct (mapM Service.envVarName ce) as [keys|e] eqn:K; cbn [bind] in He; [|discriminate].
  apply keys_ok in K. subst keys.
  apply pushOld_ok in He. subst env.
  rewrite merged_heads_skipped; auto using in_map.
  - unfold envList. now rewrite Hp.
  - apply Forall_forall. intros x Hx. eapply well_formed_item; eauto.
Qed.

Lemma merge_env_by_position_example :
  envList
    (Service.requestAfter (built [envVar "NEW" "y"])
       (snd (Service.call_merge "0.4fzyo82mvyr" (built [envVar "NEW" "y"])
               (deployedWithEnv [envVar "OLD" "x"; envVar "B" "3"; envVar "NEW" "0"]))))
  = [envVar "NEW" "y"; envVar "B" "3"].
Proof.
  apply (merge_env_by_position "0.4fzyo82mvyr" (built [envVar "NEW" "y"])
           (deployedWithEnv [envVar "OLD" "x"; envVar "B" "3"; envVar "NEW" "0"])
           (snd (Service.call_merge "0.4fzyo82mvyr" (built [envVar "NEW" "y"])
                   (deployedWithEnv [envVar "OLD" "x"; envVar "B" "3"; envVar "NEW" "0"])))
           [("image", JStr "new"); ("env", JArr [envVar "NEW" "y"])]
           [("image", JStr "old");
            ("env", JArr [envVar "OLD" "x"; envVar "B" "3"; envVar "NEW" "0"])]
           [envVar "NEW" "y"]); try reflexivity.
  repeat constructor. eexists. split; reflexivity.
Defined.

Lemma templateMetadata_merged cur prev c0 p0 :
  well_formed cur = true ->
  firstContainer cur = Some c0 ->
  firstContainer prev = Some p0 ->
  templateMetadata cur = None ->
  templateMetadata prev = None ->
  templateMetadata (lodash.mergeValue cur (Some prev)) = None.
Proof.
  intros W Hc Hp.
  destruct (firstContainer_shape _ _ Hc) as (cf & cs & ct & cs2 & crest & -> & C1 & C2 & C3 & C4).
  destruct (firstContainer_shape _ _ Hp) as (pf & ps & pt & ps2 & prest & -> & P1 & P2 & P3 & P4).
  pose proof (well_formed_field _ _ _ W C1) as W1.
  unfold templateMetadata, optbind. cbn [field].
  rewrite C1, P1. cbn [field]. rewrite C2, P2. cbn [field]. intros Mc Mp.
  rewrite mergeValue_obj. cbn [field].
  rewrite (merge_fields_present _ _ _ _ _ (well_formed_keys _ W) C1), P1.
  rewrite mergeValue_obj. cbn [field].
  rewrite (merge_fields_present _ _ _ _ _ (well_formed_keys _ W1) C2), P2.
  rewrite mergeValue_obj. cbn [field].
  now rewrite (merge_fields_absent _ _ _ _ Mc).
Qed.

(** The revision name is stored in [spec.template.metadata] of the merged
    descriptor: when neither descriptor has that object, as for a service
    built from an image and a name alone and a previous descriptor without
    it, [merge] cannot succeed. *)
Theorem merge_needs_template_metadata
    (random36 : string) (this : Service.t) (prev : json)
    (c0 p0 : list (string * json)) :
  well_formed (Service.request this) = true ->
  firstContainer (Service.request this) = Some c0 ->
  firstContainer prev = Some p0 ->
  templateMetadata (Service.request this) = None ->
  templateMetadata prev = None ->
  fst (Service.call_merge random36 this prev) <> Ok tt.
Proof.
  intros W Hc Hp Mc Mp H.
  destruct (Service.call_merge random36 this prev) as [r st] eqn:E.
  cbn [fst] in H. subst r.
  apply merge_ok_inv in E as (merged & g & nm & pe & ce & env & Hm & _ & Hnm & _).
  apply lodash_merge_ok in Hm. subst merged.
  pose proof (templateMetadata_merged _ _ _ _ W Hc Hp Mc Mp) as Mm.
  pose proof (firstContainer_merged _ _ _ _ W Hc Hp) as Fm.
  destruct (firstContainer_shape _ _ Fm) as (f & s & t & s2 & rest & Ef & E1 & E2 & _).
  rewrite Ef in Hnm, Mm.
  unfold templateMetadata, optbind in Mm. cbn [field] in Mm.
  rewrite E1 in Mm. cbn [field] in Mm. rewrite E2 in Mm. cbn [field] in Mm.
  revert Hnm. unfold Service.spec, Service.template, Service.metadata. cbn [assign].
  rewrite member_obj, E1. cbn [bind].
  rewrite member_obj, E2. cbn [bind].
  rewrite member_obj, Mm. cbn [bind]. discriminate.
Qed.

Lemma merge_needs_template_metadata_example :
  fst (Service.call_merge "0.4fzyo82mvyr" (built []) deployedBare) <> Ok tt.
Proof.
  apply (merge_needs_template_metadata "0.4fzyo82mvyr" (built []) deployedBare
           [("image", JStr "new"); ("env", JArr [])] [("image", JStr "old")]);
    reflexivity.
Defined.

(** ** The constructor, further *)

Lemma given_text s : s <> "" -> given (Some s) = true.
Proof.
  intros H. simpl. destruct (s =? "") eqn:E; [|reflexivity].
  apply String.eqb_eq in E. congruence.
Qed.

(** With an image, a name and env vars that parse, and no YAML file: the
    request is the shell with the name in [metadata] and a single container
    that holds the image and the parsed env vars. *)
Theorem constructor_with_env_vars (image name envVars : string) (l : list json) :
  image <> "" -> name <> "" -> envVars <> "" ->
  parseEnvVars envVars = Ok l ->
  Service.constructor (withEnvVars image name envVars None)
  = Ok {| Service.request :=
            JObj [("apiVersion", JStr "serving.knative.dev/v1");
                  ("kind", JStr "Service");
                  ("metadata", JObj [("name", JStr name)]);
                  ("spec",
                   JObj [("template",
                          JObj [("spec",
                                 JObj [("containers",
                                        JArr [JObj [("image", JStr image);
                                                    ("env", JArr l)]])])])])];
          Service.name := Some (JStr name) |}.
Proof.
  intros Hi Hn He Hp.
  unfold Service.constructor, Service.parsedEnvVars, Service.appliedInputs,
    Service.applyName, Service.applyImage, withEnvVars.
  cbn [ServiceOptions.image ServiceOptions.name ServiceOptions.envVars
       ServiceOptions.yaml text].
  rewrite (given_text image Hi), (given_text name Hn), (given_text envVars He), Hp.
  reflexivity.
Qed.

Lemma constructor_with_env_vars_example :
  Service.constructor (withEnvVars "gcr.io/p/i" "svc" "A=1,B=2" None)
  = Ok {| Service.request :=
            JObj [("apiVersion", JStr "serving.knative.dev/v1");
                  ("kind", JStr "Service");
                  ("metadata", JObj [("name", JStr "svc")]);
                  ("spec",
                   JObj [("template",
                          JObj [("spec",
                                 JObj [("containers",
                                        JArr [JObj [("image", JStr "gcr.io/p/i");
                                                    ("env", JArr [envVar "A" "1";
                                                                  envVar "B" "2"])]])])])])];
          Service.name := Some (JStr "svc") |}.
Proof.
  apply (constructor_with_env_vars "gcr.io/p/i" "svc" "A=1,B=2");
    [discriminate | discriminate | discriminate | reflexivity].
Defined.


Lemma baseGet_field f k rest :
  lodash.baseGet (Some (JObj f)) (Field k :: rest) = lodash.baseGet (assoc k f) rest.
Proof. reflexivity. Qed.




Lemma assign_field_inv root k rest last v r :
  assign root (Field k :: rest) last v = Ok r ->
  exists f child child',
    root = JObj f /\ assoc k f = Some child
    /\ assign child rest last v = Ok child'
    /\ r = JObj (assoc_set k child' f).
Proof.
  cbn [assign].
  destruct root as [|b|n|s|l|f]; cbn [member prop bind key_text]; try discriminate.
  destruct (assoc k f) as [child|] eqn:E; [|discriminate].
  destruct (assign child rest last v) as [child'|e] eqn:A; cbn [bind]; [|discriminate].
  intros [= <-]. cbn [with_child key_text]. now exists f, child, child'.
Qed.

Lemma assign_index_truthy root i last v r :
  assign root [Index i] last v = Ok r -> truthy (Some r) = true.
Proof.
  cbn [assign].
  destruct root as [|b|n|s|l|f]; cbn [member prop bind key_text]; try discriminate.
  - destruct (String.get i s); cbn [put bind]; discriminate.
  - destruct (nth_error l i) as [c|]; [|discriminate].
    destruct (put (Some c) last v); cbn [bind]; [|discriminate].
    now intros [= <-].
  - destruct (assoc _ f) as [c|]; [|discriminate].
    destruct (put (Some c) last v); cbn [bind]; [|discriminate].
    now intros [= <-].
Qed.

(** l.125: storing the env vars leaves a container list in place. *)
Lemma applyEnvVars_keeps_containers envVars request request' :
  Service.applyEnvVars envVars request = Ok request' ->
  truthy (lodash.get (Some request) Service.containersPath) = true ->
  truthy (lodash.get (Some request') Service.containersPath) = true.
Proof.
  unfold Service.applyEnvVars.
  destruct envVars as [ev|]; [|now intros [= <-]].
  destruct (truthy (lodash.get (Some request) Service.firstContainerPath));
    [|now intros [= <-]].
  unfold Service.firstContainerPath, Service.spec, Service.template, Service.containers.
  intros A T.
  apply assign_field_inv in A as (f & c1 & c1' & -> & E1 & A & ->).
  apply assign_field_inv in A as (s & c2 & c2' & -> & E2 & A & ->).
  apply assign_field_inv in A as (t & c3 & c3' & -> & E3 & A & ->).
  apply assign_field_inv in A as (s2 & c4 & c4' & -> & E4 & A & ->).
  apply assign_index_truthy in A.
  unfold lodash.get in *.
  change (lodash.path_text Service.containersPath) with "spec.template.spec.containers" in *.
  rewrite assoc_set_other by discriminate.
  destruct (assoc "spec.template.spec.containers" f) as [v|]; [exact T|].
  unfold Service.containersPath, Service.spec, Service.template, Service.containers.
  repeat (rewrite baseGet_field, assoc_set_same). exact A.
Qed.

(** A service the constructor returns has something truthy at
    [spec.template.spec.containers], and its [name] is what its request
    has at [metadata.name]. *)
Theorem constructed_service_invariant (opts : ServiceOptions.t) (svc : Service.t) :
  Service.constructor opts = Ok svc ->
  truthy (lodash.get (Some (Service.request svc)) Service.containersPath) = true
  /\ read (Some (Service.request svc)) [Service.metadata; Field "name"]
     = Ok (Service.name svc).
Proof.
  unfold Service.constructor.
  destruct ((negb (given (ServiceOptions.name opts))
             || negb (given (ServiceOptions.image opts)))
            && negb match ServiceOptions.yaml opts with Some _ => true | None => false end);
    [discriminate|].
  destruct (Service.parsedEnvVars opts) as [ev|]; cbn [bind]; [|discriminate].
  destruct (Service.appliedInputs opts) as [req|]; cbn [bind]; [|discriminate].
  destruct (truthy (lodash.get (Some req) Service.containersPath)) eqn:T;
    cbn [negb]; [|discriminate].
  destruct (Service.applyEnvVars ev req) as [req'|] eqn:A; cbn [bind]; [|discriminate].
  destruct (member (Some req') Service.metadata) as [m|] eqn:M; cbn [bind]; [|discriminate].
  destruct (member m (Field "name")) as [n|] eqn:N; cbn [bind]; [|discriminate].
  intros [= <-]. cbn [Service.request Service.name read]. split.
  - exact (applyEnvVars_keeps_containers ev req req' A T).
  - rewrite M. cbn [bind]. rewrite N. reflexivity.
Qed.

Lemma constructed_service_invariant_example :
  truthy (lodash.get (Some (Service.request (built [envVar "A" "1"])))
            Service.containersPath) = true
  /\ read (Some (Service.request (built [envVar "A" "1"])))
       [Service.metadata; Field "name"]
     = Ok (Service.name (built [envVar "A" "1"])).
Proof.
  apply (constructed_service_invariant (withEnvVars "new" "svc" "A=1" None)).
  reflexivity.
Defined.



(** ** The deep merge, further *)

Lemma json_induction (P : json -> Prop) :
  P JNull -> (forall b, P (JBool b)) -> (forall n, P (JNum n)) ->
  (forall s, P (JStr s)) ->
  (forall l, Forall P l -> P (JArr l)) ->
  (forall fs, Forall (fun kv => P (snd kv)) fs -> P (JObj fs)) ->
  forall v, P v.
Proof.
  intros Hnull Hbool Hnum Hstr Harr Hobj.
  fix IH 1. intros [|b|n|s|l|fs].
  - exact Hnull.
  - apply Hbool.
  - apply Hnum.
  - apply Hstr.
  - apply Harr. induction l as [|x l IHl]; constructor; [apply IH | exact IHl].
  - apply Hobj. induction fs as [|[k x] fs IHfs]; constructor; [apply IH | exact IHfs].
Qed.

Lemma well_formed_values fs :
  well_formed (JObj fs) = true ->
  Forall (fun kv => well_formed (snd kv) = true) fs.
Proof.
  cbn [well_formed]. rewrite andb_true_iff. intros [_ H].
  induction fs as [|[k x] fs IH]; constructor.
  - apply andb_true_iff in H. apply H.
  - apply IH. apply andb_true_iff in H. apply H.
Qed.

Lemma assoc_set_absent {A : Type} k (v : A) l :
  assoc k l = None -> assoc_set k v l = (l ++ [(k, v)])%list.
Proof.
  induction l as [|[k' v'] l IH]; simpl; [reflexivity|].
  destruct (k' =? k); [discriminate|]. intros H. now rewrite IH.
Qed.

Lemma assoc_set_id {A : Type} k (v : A) l :
  assoc k l = Some v -> assoc_set k v l = l.
Proof.
  induction l as [|[k' v'] l IH]; simpl; [discriminate|].
  destruct (k' =? k) eqn:E.
  - apply String.eqb_eq in E. now intros [= ->]; subst.
  - intros H. now rewrite IH.
Qed.

Lemma NoDup_assoc {A : Type} k (v : A) l :
  NoDup (map fst l) -> In (k, v) l -> assoc k l = Some v.
Proof.
  induction l as [|[k' v'] l IH]; simpl; [tauto|].
  intros Hnd [[= -> ->]|Hin].
  - now rewrite String.eqb_refl.
  - inversion Hnd as [|? ? Hk Hl]; subst.
    destruct (k' =? k) eqn:E.
    + apply String.eqb_eq in E. subst. exfalso. apply Hk.
      change k with (fst (k, v)). now apply in_map.
    + now apply IH.
Qed.

(** Fields merged onto nothing of their kind are copied. *)
Lemma merge_fields_copy f (src acc : list (string * json)) :
  NoDup (map fst (acc ++ src)) ->
  Forall (fun kv => f (snd kv) None = snd kv) src ->
  lodash.merge_fields f src acc = (acc ++ src)%list.
Proof.
  revert acc. induction src as [|[k v] src IH]; intros acc Hnd Hall; cbn [lodash.merge_fields].
  - now rewrite app_nil_r.
  - inversion Hall as [|? ? Hv Hrest]; subst. cbn [snd] in Hv.
    assert (assoc k acc = None) as Hk.
    { apply assoc_none_notin. intros Hin.
      rewrite map_app in Hnd. cbn [map fst] in Hnd.
      apply NoDup_remove_2 in Hnd. apply Hnd, in_or_app. now left. }
    rewrite Hk, Hv, (assoc_set_absent k v acc Hk), IH.
    + now rewrite <- app_assoc.
    + now rewrite <- app_assoc.
    + exact Hrest.
Qed.

Lemma merge_items_copy f (src : list json) :
  Forall (fun x => f x None = x) src ->
  lodash.merge_items f src [] = src.
Proof.
  induction 1 as [|x src Hx _ IH]; cbn [lodash.merge_items]; [reflexivity|].
  now rewrite Hx, IH.
Qed.

Lemma mergeValue_copy v :
  well_formed v = true -> lodash.mergeValue v None = v.
Proof.
  induction v as [| | | |l IH|fs IH] using json_induction; intros Hwf; try reflexivity.
  - rewrite mergeValue_arr. f_equal. apply merge_items_copy.
    rewrite Forall_forall in *. intros x Hx. apply IH; [assumption|].
    now apply (well_formed_item l).
  - rewrite mergeValue_obj. f_equal.
    rewrite merge_fields_copy; [reflexivity | now apply well_formed_keys |].
    pose proof (well_formed_values fs Hwf) as Hv.
    rewrite Forall_forall in *. intros kv Hin. apply IH; [assumption | now apply Hv].
Qed.

Lemma mergeValue_onto_primitive v o :
  nothing_to_merge_into o = true -> lodash.mergeValue v o = lodash.mergeValue v None.
Proof.
  destruct v as [| | | |l|fs]; try reflexivity;
    destruct o as [[| | | |l'|fs']|]; try reflexivity; discriminate.
Qed.

(** A field of the current descriptor where the previous descriptor has no
    value, or a value that is neither an object nor an array, is, in the
    deep merge, the current value as it is, nested objects and arrays
    included. *)
Theorem deep_merge_takes_current_value
    (p c : list (string * json)) (merged : json) (k : string) (v : json) :
  well_formed (JObj c) = true ->
  lodash.merge (JObj p) (JObj c) = Ok merged ->
  assoc k c = Some v ->
  nothing_to_merge_into (assoc k p) = true ->
  field k merged = Some v.
Proof.
  intros Hwf Hm Hk Hkind. apply lodash_merge_ok in Hm. subst merged.
  rewrite field_mergeValue by now apply well_formed_keys.
  rewrite Hk, (mergeValue_onto_primitive v _ Hkind), mergeValue_copy; [reflexivity|].
  now apply (well_formed_field c k).
Qed.

Lemma deep_merge_takes_current_value_example :
  field "spec"
    (JObj [("kind", JStr "Service"); ("spec", JObj [("a", JArr [JNum 1])])])
  = Some (JObj [("a", JArr [JNum 1])]).
Proof.
  apply (deep_merge_takes_current_value
           [("kind", JStr "Service"); ("spec", JStr "none")]
           [("spec", JObj [("a", JArr [JNum 1])])]
           _ "spec" (JObj [("a", JArr [JNum 1])]));
    reflexivity.
Defined.

Lemma merge_fields_same f (src dst : list (string * json)) :
  Forall (fun kv => assoc (fst kv) dst = Some (snd kv)
                    /\ f (snd kv) (Some (snd kv)) = snd kv) src ->
  lodash.merge_fields f src dst = dst.
Proof.
  induction 1 as [|[k v] src [Hk Hv] _ IH]; cbn [lodash.merge_fields]; [reflexivity|].
  cbn [fst snd] in Hk, Hv. now rewrite Hk, Hv, (assoc_set_id k v dst Hk).
Qed.

Lemma merge_items_same f (src : list json) :
  Forall (fun x => f x (Some x) = x) src ->
  lodash.merge_items f src src = src.
Proof.
  induction 1 as [|x src Hx _ IH]; cbn [lodash.merge_items]; [reflexivity|].
  now rewrite Hx, IH.
Qed.

Lemma mergeValue_same v :
  well_formed v = true -> lodash.mergeValue v (Some v) = v.
Proof.
  induction v as [| | | |l IH|fs IH] using json_induction; intros Hwf; try reflexivity.
  - rewrite mergeValue_arr. f_equal. apply merge_items_same.
    rewrite Forall_forall in *. intros x Hx. apply IH; [assumption|].
    now apply (well_formed_item l).
  - rewrite mergeValue_obj. f_equal. apply merge_fields_same.
    pose proof (well_formed_values fs Hwf) as Hv.
    pose proof (well_formed_keys fs Hwf) as Hnd.
    rewrite Forall_forall in *. intros [k x] Hin. cbn [fst snd]. split.
    + now apply NoDup_assoc.
    + apply (IH (k, x) Hin). now apply (Hv (k, x)).
Qed.

(** The deep merge of a descriptor onto an equal one changes nothing. *)
Theorem deep_merge_of_equal_descriptors (d merged : json) :
  well_formed d = true ->
  lodash.merge d d = Ok merged ->
  merged = d.
Proof.
  intros Hwf Hm.
  destruct d as [| | | |l|fs]; try discriminate.
  apply lodash_merge_ok in Hm. subst merged. now apply mergeValue_same.
Qed.

Lemma deep_merge_of_equal_descriptors_example :
  lodash.mergeValue (Service.request (built [envVar "A" "1"]))
    (Some (Service.request (built [envVar "A" "1"])))
  = Service.request (built [envVar "A" "1"]).
Proof.
  apply (deep_merge_of_equal_descriptors (Service.request (built [envVar "A" "1"])));
    reflexivity.
Defined.
